(** * Rotating log writer (package rotation): model and verification

    The Go type [Rotator] appends bytes to a size-bounded file and, when the
    next write would overflow the threshold, shifts the file into a chain
    of numbered backups and starts a fresh file.

    The methods [New], [Write], [Close] and [rotate] are embedded as
    state-passing functions over an explicit model of the operating system:
    a directory (path to inode), inode contents, a table of open
    descriptors, a log of every system call with its outcome, and a script
    of injected I/O faults.  The mutex of the Go type serialises the
    methods; the model runs them one at a time. *)

From Stdlib Require Import ZArith Lia.
From stdpp Require Import base option list strings gmap pretty.

Open Scope Z_scope.

(** * The model *)

(** ** Go values *)

Abbreviation byte := Byte.byte.

(** A Go pointer to [os.File]: the number of the open-file description. *)
Definition handle := nat.

(** Go [error] values that the rotator can see.  [ErrNotExist] is the one
    recognised by [os.IsNotExist]; [ErrIO] stands for any other failure of
    a system call. *)
Inductive error : Type :=
  | ErrNotExist
  | ErrClosed
  | ErrInvalid
  | ErrIO (code : nat)
  | Wrapped (e : error).

(** Modelled from the spec: [errs.Wrap] lives in the sibling package errs,
    which is not part of the sources at hand.  The spec only says that I/O
    errors are "wrapped with contextual information and returned to the
    caller", so wrapping is a constructor that keeps the cause. *)
Definition Wrap (e : error) : error := Wrapped e.

(** [os.IsNotExist]. *)
Definition IsNotExist (e : error) : bool :=
  match e with
  | ErrNotExist => true
  | _ => false
  end.

(** Two's complement int64: the value of a Go int64 expression whose
    mathematical value is [z]. *)
Definition wrap64 (z : Z) : Z := (z + 2 ^ 63) mod 2 ^ 64 - 2 ^ 63.

Definition add64 (a b : Z) : Z := wrap64 (a + b).

(** ** The operating system *)

(** An injected fault: the call fails with [ErrIO f_code]; a file write
    still transfers [f_partial] bytes (at most the payload) first. *)
Record fault : Type := Fault { f_code : nat; f_partial : nat }.

Inductive call : Type :=
  | CStat (p : string)
  | CMkdirAllDir (p : string)      (* os.MkdirAll(filepath.Dir(p), 0755) *)
  | CCreate (p : string)
  | COpenAppend (p : string)       (* os.OpenFile(p, O_WRONLY|O_APPEND, 0666) *)
  | CWrite (h : handle) (b : list byte)
  | CClose (h : handle)
  | CRemove (p : string)
  | CRename (old new : string).

Inductive outcome : Type :=
  | Done
  | Failed (e : error)
  | Size (n : Z)
  | Opened (h : handle)
  | Wrote (n : nat) (e : option error).

Record event : Type := Ev { ev_call : call; ev_outcome : outcome }.

Record World : Type := mkWorld {
  w_dir : gmap string nat;          (* directory entries: path to inode *)
  w_inodes : gmap nat (list byte);  (* inode contents *)
  w_fds : gmap nat nat;             (* open descriptors: handle to inode *)
  w_next : nat;                     (* next unused inode / handle number *)
  w_oracle : list (option fault);   (* one entry consumed per system call *)
  w_trace : list event              (* system calls so far, oldest first *)
}.

Definition set_dir (d : gmap string nat) (w : World) : World :=
  mkWorld d (w_inodes w) (w_fds w) (w_next w) (w_oracle w) (w_trace w).
Definition set_inodes (i : gmap nat (list byte)) (w : World) : World :=
  mkWorld (w_dir w) i (w_fds w) (w_next w) (w_oracle w) (w_trace w).
Definition set_fds (f : gmap nat nat) (w : World) : World :=
  mkWorld (w_dir w) (w_inodes w) f (w_next w) (w_oracle w) (w_trace w).
Definition set_next (n : nat) (w : World) : World :=
  mkWorld (w_dir w) (w_inodes w) (w_fds w) n (w_oracle w) (w_trace w).
Definition set_oracle (o : list (option fault)) (w : World) : World :=
  mkWorld (w_dir w) (w_inodes w) (w_fds w) (w_next w) o (w_trace w).
Definition set_trace (t : list event) (w : World) : World :=
  mkWorld (w_dir w) (w_inodes w) (w_fds w) (w_next w) (w_oracle w) t.

(** Content of the file found at a path. *)
Definition inode_data (w : World) (ino : nat) : list byte :=
  default [] (w_inodes w !! ino).

Definition content (w : World) (p : string) : option (list byte) :=
  inode_data w <$> w_dir w !! p.

(** *** State monad over the world *)

Definition M (A : Type) : Type := World → A * World.

Definition ret {A} (a : A) : M A := λ w, (a, w).

Definition bind {A B} (c : M A) (k : A → M B) : M B :=
  λ w, let (a, w1) := c w in k a w1.

Declare Scope os_scope.
Delimit Scope os_scope with os.
Notation "x <- c ;; k" := (bind c (λ x, k))
  (at level 100, c at next level, right associativity) : os_scope.
Open Scope os_scope.

(** Consume the next entry of the fault script (no entry: no fault). *)
Definition next_fault : M (option fault) :=
  λ w, (default None (head (w_oracle w)), set_oracle (tail (w_oracle w)) w).

Definition emit (c : call) (o : outcome) : M unit :=
  λ w, (tt, set_trace (w_trace w ++ [Ev c o]) w).

Definition get : M World := λ w, (w, w).
Definition put (w : World) : M unit := λ _, (tt, w).

(** Allocate a descriptor on inode [ino]. *)
Definition open_fd (ino : nat) : M handle :=
  λ w, (w_next w, set_next (S (w_next w)) (set_fds (<[w_next w := ino]> (w_fds w)) w)).

(** *** The system calls *)

(** [os.Stat(p)]: the size of the file, or [ErrNotExist]. *)
Definition os_Stat (p : string) : M (error + Z) :=
  f <- next_fault;;
  w <- get;;
  match f with
  | Some ft => _ <- emit (CStat p) (Failed (ErrIO (f_code ft)));; ret (inl (ErrIO (f_code ft)))
  | None =>
      match content w p with
      | Some c => _ <- emit (CStat p) (Size (Z.of_nat (length c)));; ret (inr (Z.of_nat (length c)))
      | None => _ <- emit (CStat p) (Failed ErrNotExist);; ret (inl ErrNotExist)
      end
  end.

(** [os.MkdirAll(filepath.Dir(p), 0755)]: directories are not tracked, the
    call only succeeds or fails. *)
Definition os_MkdirAllDir (p : string) : M (option error) :=
  f <- next_fault;;
  match f with
  | Some ft => _ <- emit (CMkdirAllDir p) (Failed (ErrIO (f_code ft)));; ret (Some (ErrIO (f_code ft)))
  | None => _ <- emit (CMkdirAllDir p) Done;; ret None
  end.

(** [os.Create(p)]: create or truncate, and open. *)
Definition os_Create (p : string) : M (error + handle) :=
  f <- next_fault;;
  w <- get;;
  match f with
  | Some ft => _ <- emit (CCreate p) (Failed (ErrIO (f_code ft)));; ret (inl (ErrIO (f_code ft)))
  | None =>
      let ino := match w_dir w !! p with Some i => i | None => w_next w end in
      _ <- put (set_next (match w_dir w !! p with Some _ => w_next w | None => S (w_next w) end)
                 (set_inodes (<[ino := []]> (w_inodes w))
                   (set_dir (<[p := ino]> (w_dir w)) w)));;
      h <- open_fd ino;;
      _ <- emit (CCreate p) (Opened h);;
      ret (inr h)
  end.

(** [os.OpenFile(p, os.O_WRONLY|os.O_APPEND, 0666)]. *)
Definition os_OpenAppend (p : string) : M (error + handle) :=
  f <- next_fault;;
  w <- get;;
  match f with
  | Some ft => _ <- emit (COpenAppend p) (Failed (ErrIO (f_code ft)));; ret (inl (ErrIO (f_code ft)))
  | None =>
      match w_dir w !! p with
      | Some ino => h <- open_fd ino;; _ <- emit (COpenAppend p) (Opened h);; ret (inr h)
      | None => _ <- emit (COpenAppend p) (Failed ErrNotExist);; ret (inl ErrNotExist)
      end
  end.

(** Append [bs] to the inode behind a descriptor. *)
Definition append_inode (ino : nat) (bs : list byte) (w : World) : World :=
  set_inodes (<[ino := inode_data w ino ++ bs]> (w_inodes w)) w.

(** [File.Write(b)] of package os: the rotator is the only writer of its file, so
    every write lands at the end of the file.  Without a fault the whole
    payload is written; with one, a prefix is. *)
Definition file_Write (h : handle) (b : list byte) : M (nat * option error) :=
  f <- next_fault;;
  w <- get;;
  match w_fds w !! h with
  | None => _ <- emit (CWrite h b) (Wrote 0 (Some ErrClosed));; ret (0%nat, Some ErrClosed)
  | Some ino =>
      match f with
      | Some ft =>
          let n := Nat.min (f_partial ft) (length b) in
          _ <- put (append_inode ino (take n b) w);;
          _ <- emit (CWrite h b) (Wrote n (Some (ErrIO (f_code ft))));;
          ret (n, Some (ErrIO (f_code ft)))
      | None =>
          _ <- put (append_inode ino b w);;
          _ <- emit (CWrite h b) (Wrote (length b) None);;
          ret (length b, None)
      end
  end.

(** [File.Close()] of package os: the descriptor is released whether or not the
    call reports an error. *)
Definition file_Close (h : handle) : M (option error) :=
  f <- next_fault;;
  w <- get;;
  match w_fds w !! h with
  | None => _ <- emit (CClose h) (Failed ErrClosed);; ret (Some ErrClosed)
  | Some _ =>
      _ <- put (set_fds (delete h (w_fds w)) w);;
      match f with
      | Some ft => _ <- emit (CClose h) (Failed (ErrIO (f_code ft)));; ret (Some (ErrIO (f_code ft)))
      | None => _ <- emit (CClose h) Done;; ret None
      end
  end.

(** [os.Remove(p)]. *)
Definition os_Remove (p : string) : M (option error) :=
  f <- next_fault;;
  w <- get;;
  match f with
  | Some ft => _ <- emit (CRemove p) (Failed (ErrIO (f_code ft)));; ret (Some (ErrIO (f_code ft)))
  | None =>
      match w_dir w !! p with
      | Some _ => _ <- put (set_dir (delete p (w_dir w)) w);; _ <- emit (CRemove p) Done;; ret None
      | None => _ <- emit (CRemove p) (Failed ErrNotExist);; ret (Some ErrNotExist)
      end
  end.

(** [os.Rename(old, new)]: the entry moves and replaces whatever [new]
    named. *)
Definition os_Rename (old new : string) : M (option error) :=
  f <- next_fault;;
  w <- get;;
  match f with
  | Some ft => _ <- emit (CRename old new) (Failed (ErrIO (f_code ft)));; ret (Some (ErrIO (f_code ft)))
  | None =>
      match w_dir w !! old with
      | Some ino =>
          _ <- put (set_dir (<[new := ino]> (delete old (w_dir w))) w);;
          _ <- emit (CRename old new) Done;; ret None
      | None => _ <- emit (CRename old new) (Failed ErrNotExist);; ret (Some ErrNotExist)
      end
  end.

(** ** The rotator *)

Record Rotator : Type := mkRotator {
  path : string;
  maxSize : Z;         (* int64 *)
  maxBackups : Z;      (* int *)
  file : option handle;
  size : Z             (* int64 *)
}.

Definition set_file (f : option handle) (r : Rotator) : Rotator :=
  mkRotator (path r) (maxSize r) (maxBackups r) f (size r).
Definition set_size (s : Z) (r : Rotator) : Rotator :=
  mkRotator (path r) (maxSize r) (maxBackups r) (file r) s.

(** [New]: the options mutate a default instance in order; the first
    option that fails aborts the construction.  The defaults
    ([DefaultPath()], [DefaultMaxSize], [DefaultMaxBackups]) are declared
    in another file of the package and come in as arguments. *)
Definition rotator_option : Type := Rotator → Rotator * option error.

Fixpoint apply_options (options : list rotator_option) (r : Rotator) : error + Rotator :=
  match options with
  | [] => inr r
  | option :: rest =>
      let (r1, err) := option r in
      match err with
      | Some e => inl e
      | None => apply_options rest r1
      end
  end.

Definition New (DefaultPath : string) (DefaultMaxSize DefaultMaxBackups : Z)
    (options : list rotator_option) : error + Rotator :=
  apply_options options (mkRotator DefaultPath DefaultMaxSize DefaultMaxBackups None 0).

(** [fmt.Sprintf("%s-%d", path, i)]. *)
Definition backupPath (p : string) (i : Z) : string := p +:+ "-" +:+ pretty i.

(** [if err != nil && !os.IsNotExist(err) { return errs.Wrap(err) }]:
    the error that aborts, if any. *)
Definition fatal (err : option error) : option error :=
  match err with
  | Some e => if IsNotExist e then None else Some (Wrap e)
  | None => None
  end.

(** The variable [oldPath] of the loop body. *)
Definition oldPath (p : string) (i : nat) : string :=
  if decide (i ≠ 1%nat) then backupPath p (Z.of_nat i - 1) else p.

(** The loop [for i := r.maxBackups; i > 0; i--] of [rotate]. *)
Fixpoint shiftBackups (p : string) (i : nat) : M (option error) :=
  match i with
  | O => ret None
  | S j =>
      err <- os_Rename (oldPath p i) (backupPath p (Z.of_nat i));;
      match fatal err with
      | Some e => ret (Some e)
      | None => shiftBackups p j
      end
  end.

(** Lines 101-120 of [rotate]: make room for the file about to be
    retired. *)
Definition pruneBackups (r : Rotator) : M (option error) :=
  if maxBackups r <? 1 then
    err <- os_Remove (path r);; ret (fatal err)
  else
    err <- os_Remove (backupPath (path r) (maxBackups r));;
    match fatal err with
    | Some e => ret (Some e)
    | None => shiftBackups (path r) (Z.to_nat (maxBackups r))
    end.

Definition rotate (r : Rotator) : M (option error * Rotator) :=
  closed <- match file r with
            | Some f => err <- file_Close f;; ret (err, set_file None r)
            | None => ret (None, r)
            end;;
  let '(cerr, r) := closed in
  match cerr with
  | Some e => ret (Some (Wrap e), r)
  | None =>
      err <- pruneBackups r;;
      match err with
      | Some e => ret (Some e, r)
      | None =>
          c <- os_Create (path r);;
          match c with
          | inl e => ret (Some (Wrap e), r)
          | inr f => ret (None, set_size 0 (set_file (Some f) r))
          end
      end
  end.

(** Lines 41-64 of [Write]: open the file if no handle is held.  [inl] is
    the early return of an error. *)
Definition openIfNeeded (r : Rotator) : M (error + Rotator) :=
  match file r with
  | Some _ => ret (inr r)
  | None =>
      st <- os_Stat (path r);;
      match st with
      | inl err =>
          if IsNotExist err then
            merr <- os_MkdirAllDir (path r);;
            match merr with
            | Some e => ret (inl (Wrap e))
            | None =>
                c <- os_Create (path r);;
                match c with
                | inl ferr => ret (inl (Wrap ferr))
                | inr f => ret (inr (set_size 0 (set_file (Some f) r)))
                end
            end
          else ret (inl (Wrap err))
      | inr fiSize =>
          c <- os_OpenAppend (path r);;
          match c with
          | inl e => ret (inl (Wrap e))
          | inr f => ret (inr (set_size fiSize (set_file (Some f) r)))
          end
      end
  end.

(** Lines 65-70: rotate when the payload does not fit. *)
Definition rotateIfNeeded (b : list byte) (r : Rotator) : M (option error * Rotator) :=
  let writeSize := Z.of_nat (length b) in
  if add64 (size r) writeSize >? maxSize r then rotate r else ret (None, r).

(** Lines 71-76: the write itself.  A method call on a nil file pointer
    returns [os.ErrInvalid] without touching the system. *)
Definition writeFile (b : list byte) (r : Rotator) : M ((Z * option error) * Rotator) :=
  res <- match file r with
         | Some f => file_Write f b
         | None => ret (0%nat, Some ErrInvalid)
         end;;
  let '(n, err) := res in
  ret ((Z.of_nat n, option_map Wrap err), set_size (add64 (size r) (Z.of_nat n)) r).

(** Lines 65-76, taken together: what [Write] does once the file is open. *)
Definition writeOpened (b : list byte) (r : Rotator) : M ((Z * option error) * Rotator) :=
  rot <- rotateIfNeeded b r;;
  let '(rerr, r) := rot in
  match rerr with
  | Some e => ret ((0, Some e), r)
  | None => writeFile b r
  end.

Definition Write (b : list byte) (r : Rotator) : M ((Z * option error) * Rotator) :=
  o <- openIfNeeded r;;
  match o with
  | inl e => ret ((0, Some e), r)
  | inr r => writeOpened b r
  end.

Definition Close (r : Rotator) : M (option error * Rotator) :=
  match file r with
  | Some f =>
      err <- file_Close f;;
      ret (option_map Wrap err, set_file None r)
  | None => ret (None, r)
  end.

(** ** Sequences of calls *)

(** The operations a caller (or, for [rotate], the package itself) can
    run on a rotator. *)
Inductive op : Type :=
  | OpWrite (b : list byte)
  | OpClose
  | OpRotate.

Definition step (o : op) (s : Rotator * World) : Rotator * World :=
  let (r, w) := s in
  match o with
  | OpWrite b => let '(_, r', w') := Write b r w in (r', w')
  | OpClose => let '(_, r', w') := Close r w in (r', w')
  | OpRotate => let '(_, r', w') := rotate r w in (r', w')
  end.

Definition run (ops : list op) (s : Rotator * World) : Rotator * World :=
  foldl (λ s o, step o s) s ops.

(** A run of [Write] calls that all return no error. *)
Fixpoint write_all (bs : list (list byte)) (r : Rotator) (w : World)
    : option (Rotator * World) :=
  match bs with
  | [] => Some (r, w)
  | b :: rest =>
      let '(res, r1, w1) := Write b r w in
      match snd res with
      | None => write_all rest r1 w1
      | Some _ => None
      end
  end.

(** * Vocabulary of the statements *)

(** ** The log and the fault script *)

(** What a call that may fail reports in the log. *)
Definition reported (e : option error) : outcome :=
  match e with
  | None => Done
  | Some x => Failed x
  end.

(** The error that the next entry of the fault script injects, if any.
    An injected error is never "does not exist": that outcome comes from
    the directory alone. *)
Definition injected (w : World) : option error :=
  (λ ft, ErrIO (f_code ft)) <$> default None (head (w_oracle w)).

(** The fault that the script holds for the [i]-th call from now. *)
Definition fault_at (w : World) (i : nat) : option fault :=
  default None (w_oracle w !! i).

(** The world once the call has consumed its script entry and logged
    itself. *)
Definition logged (c : call) (o : outcome) (w : World) : World :=
  set_trace (w_trace w ++ [Ev c o]) (set_oracle (tail (w_oracle w)) w).

(** [runs w w' evs]: going from [w] to [w'] logged the calls [evs] and
    consumed one script entry per call. *)
Definition runs (w w' : World) (evs : list event) : Prop :=
  w_trace w' = w_trace w ++ evs ∧
  w_oracle w' = drop (length evs) (w_oracle w).

(** The calls that change the content of a file. *)
Definition is_write (c : call) : bool :=
  match c with
  | CWrite _ _ => true
  | _ => false
  end.

(** No call of [evs] writes to a file. *)
Definition silent (evs : list event) : Prop :=
  Forall (λ ev, is_write (ev_call ev) = false) evs.

(** Going from [w] to [w'] only logged calls that do not write. *)
Definition quietly (w w' : World) : Prop := ∃ evs, runs w w' evs ∧ silent evs.

(** An outcome that [rotate] lets pass. *)
Definition tolerated (e : event) : Prop :=
  ev_outcome e = Done ∨ ev_outcome e = Failed ErrNotExist.

(** The event a successful close of the held handle leaves in the log. *)
Definition closing (r : Rotator) : list event :=
  match file r with
  | Some f => [Ev (CClose f) Done]
  | None => []
  end.

(** The log entry of a [Close]: the close of the held handle, if any. *)
Definition close_log (r : Rotator) (w : World) : list event :=
  match file r with
  | Some f => [Ev (CClose f) (reported (fst (file_Close f w)))]
  | None => []
  end.

(** ** The directory *)

(** Directory after [os.Rename(old, new)] went through. *)
Definition renamed (old new : string) (d : gmap string nat) : gmap string nat :=
  match d !! old with
  | Some ino => <[new := ino]> (delete old d)
  | None => d
  end.

(** The renames of a rotation that keeps [n] backups, in the order the
    spec gives them: for [i] from [n] down to 1, the file that becomes
    path-i is path-(i-1), or the live file when [i] is 1. *)
Definition renames (p : string) (n : nat) : list call :=
  (λ i : nat, CRename (if (i =? 1)%nat then p else backupPath p (Z.of_nat i - 1))
                      (backupPath p (Z.of_nat i))) <$> rev (seq 1 n).

(** The directory once the loop has run to its end. *)
Fixpoint shifted (p : string) (n : nat) (d : gmap string nat) : gmap string nat :=
  match n with
  | O => d
  | S j => shifted p j (renamed (oldPath p n) (backupPath p (Z.of_nat n)) d)
  end.

(** The directory a successful rotation leaves. *)
Definition rotated (r : Rotator) (next : nat) (d : gmap string nat) : gmap string nat :=
  if maxBackups r <? 1 then <[path r := next]> d
  else <[path r := next]>
         (shifted (path r) (Z.to_nat (maxBackups r))
            (delete (backupPath (path r) (maxBackups r)) d)).

(** The rotator holds a handle that is open on the file at its path. *)
Definition attached (r : Rotator) (w : World) : Prop :=
  ∃ h ino, file r = Some h ∧ w_fds w !! h = Some ino ∧ w_dir w !! path r = Some ino.

(** ** The backup chain *)

(** The chain of backups of [p] in directory [d]: numbered from 1 to [n],
    without gaps, newest first.  Inode numbers are handed out in
    increasing order, so of two files the one with the larger number is
    the younger. *)
Definition chain_at (p : string) (n : Z) (d : gmap string nat) : Prop :=
  (∀ i, 1 ≤ i → is_Some (d !! backupPath p i) → i ≤ n) ∧
  (∀ i, 1 < i → is_Some (d !! backupPath p i) → is_Some (d !! backupPath p (i - 1))) ∧
  (∀ i j a b, 1 ≤ i < j →
     d !! backupPath p i = Some a → d !! backupPath p j = Some b → (b < a)%nat).

(** The property of the spec: the backups of the rotator's path on disk. *)
Definition chain_ok (r : Rotator) (w : World) : Prop :=
  chain_at (path r) (maxBackups r) (w_dir w).

(** The chain at rest: the live file is there whenever a backup is, it is
    younger than every backup, and all of them are older than any file yet
    to be created. *)
Definition settled_at (p : string) (n : Z) (d : gmap string nat) (nx : nat) : Prop :=
  chain_at p n d ∧
  (is_Some (d !! backupPath p 1) → is_Some (d !! p)) ∧
  (∀ i a c, 1 ≤ i → d !! backupPath p i = Some a → d !! p = Some c → (a < c)%nat) ∧
  (∀ i a, 1 ≤ i → d !! backupPath p i = Some a → (a < nx)%nat) ∧
  (∀ c, d !! p = Some c → (c < nx)%nat).

(** The invariant that the operations keep when no call fails. *)
Definition settled (r : Rotator) (w : World) : Prop :=
  settled_at (path r) (maxBackups r) (w_dir w) (w_next w).

(** ** Concrete runs *)

(** An empty disk with a script of faults to inject. *)
Definition empty_world (faults : list (option fault)) : World :=
  mkWorld ∅ ∅ ∅ 0 faults [].

(** A rotator on "log" with a threshold of four bytes, as [New] leaves it. *)
Definition demo (n : Z) : Rotator := mkRotator "log" 4 n None 0.

Definition abc : list byte := [Byte.x61; Byte.x62; Byte.x63].

(** Three writes of three bytes under a threshold of four: two rotations,
    so the live file and two backups. *)
Definition chained : Rotator * World :=
  run [OpWrite abc; OpWrite abc; OpWrite abc] (demo 2, empty_world []).

(** A first write, then a second one whose rotation fails at the removal
    of the oldest backup (the sixth call). *)
Definition before_failure : Rotator * World :=
  run [OpWrite abc]
      (demo 2, empty_world (replicate 5 None ++ [Some (Fault 7 0)])).

(** A write of three bytes that is cut short after two. *)
Definition roomy : Rotator := mkRotator "log" 10 2 None 0.

Definition before_short_write : Rotator * World :=
  run [OpWrite abc] (roomy, empty_world (replicate 4 None ++ [Some (Fault 9 2)])).

(** Four writes with three backups kept; the rename of the first backup
    fails in the third rotation (the twenty-second call), after the second
    backup has already moved to the third slot. *)
Definition broken_chain : Rotator * World :=
  run [OpWrite abc; OpWrite abc; OpWrite abc; OpWrite abc]
      (demo 3, empty_world (replicate 21 None ++ [Some (Fault 5 0)])).

(** A rotation whose close fails (the fifth call). *)
Definition before_close_failure : Rotator * World :=
  run [OpWrite abc] (demo 2, empty_world (replicate 4 None ++ [Some (Fault 3 0)])).

(** A disk left by a rotator that kept one backup, then a rotator on the
    same path that keeps none. *)
Definition leftover : World :=
  snd (run [OpWrite abc; OpWrite abc; OpClose] (demo 1, empty_world [])).

(** ** Tactics *)

(** Reduce the projections of worlds and rotators built by the setters. *)
Ltac wsimpl :=
  cbn [w_dir w_inodes w_fds w_next w_oracle w_trace logged append_inode
       set_dir set_inodes set_fds set_next set_oracle set_trace
       path maxSize maxBackups file size set_file set_size fst snd] in *.

(** Split the call at the head of a sequence off, keeping its [runs] fact. *)
Ltac step_with lem :=
  unfold bind at 1;
  match goal with
  | |- context [let (_, _) := ?c ?w in _] =>
      let a := fresh "a" in let w1 := fresh "w" in
      let E := fresh "E" in let o := fresh "o" in let R := fresh "R" in
      destruct lem as [o R] ; destruct (c w) as [a w1] eqn:E; cbn [snd] in R
  end.

(** * Theorems *)

(** ** Facts about paths and int64 arithmetic *)

Lemma append_self_inv (p s : string) : p = p +:+ s → s = "".
Proof.
  induction p as [|a p IH]; simpl; intros H; [done|].
  injection H as H. auto.
Qed.

Lemma backupPath_ne_path p i : backupPath p i ≠ p.
Proof.
  unfold backupPath. intros H. symmetry in H.
  apply append_self_inv in H. discriminate.
Qed.

Lemma backupPath_inj p i j : backupPath p i = backupPath p j → i = j.
Proof.
  unfold backupPath. intros H.
  apply String.app_inj in H. apply (String.app_inj "-") in H.
  by apply pretty_Z_inj in H.
Qed.

Lemma wrap64_small z : - 2 ^ 63 ≤ z < 2 ^ 63 → wrap64 z = z.
Proof. unfold wrap64. intros H. rewrite Z.mod_small; lia. Qed.

Lemma wrap64_range z : - 2 ^ 63 ≤ wrap64 z < 2 ^ 63.
Proof.
  unfold wrap64. pose proof (Z.mod_pos_bound (z + 2 ^ 63) (2 ^ 64)). lia.
Qed.

Lemma wrap64_le_nonneg z : 0 ≤ z → wrap64 z ≤ z.
Proof.
  intros H. unfold wrap64.
  pose proof (Z.mod_le (z + 2 ^ 63) (2 ^ 64)). lia.
Qed.

(** Away from the ends of the int64 range the sum is the plain sum. *)
Lemma add64_exact a b : - 2 ^ 63 ≤ a + b < 2 ^ 63 → add64 a b = a + b.
Proof. apply wrap64_small. Qed.

(** ** The system calls in closed form *)

Lemma os_Remove_eq p w :
  os_Remove p w =
    match injected w with
    | Some e => (Some e, logged (CRemove p) (Failed e) w)
    | None =>
        match w_dir w !! p with
        | Some _ => (None, logged (CRemove p) Done (set_dir (delete p (w_dir w)) w))
        | None => (Some ErrNotExist, logged (CRemove p) (Failed ErrNotExist) w)
        end
    end.
Proof.
  unfold os_Remove, injected, bind, next_fault, get, put, emit, ret, logged; simpl.
  destruct (head (w_oracle w)) as [[ft|]|]; simpl; try done;
    destruct (w_dir w !! p); done.
Qed.

Lemma os_Rename_eq old new w :
  os_Rename old new w =
    match injected w with
    | Some e => (Some e, logged (CRename old new) (Failed e) w)
    | None =>
        match w_dir w !! old with
        | Some ino =>
            (None, logged (CRename old new) Done
                     (set_dir (<[new := ino]> (delete old (w_dir w))) w))
        | None => (Some ErrNotExist, logged (CRename old new) (Failed ErrNotExist) w)
        end
    end.
Proof.
  unfold os_Rename, injected, bind, next_fault, get, put, emit, ret, logged; simpl.
  destruct (head (w_oracle w)) as [[ft|]|]; simpl; try done;
    destruct (w_dir w !! old); done.
Qed.

Lemma os_Create_eq p w :
  os_Create p w =
    match injected w with
    | Some e => (inl e, logged (CCreate p) (Failed e) w)
    | None =>
        match w_dir w !! p with
        | Some ino =>
            (inr (w_next w),
             logged (CCreate p) (Opened (w_next w))
               (set_next (S (w_next w))
                 (set_fds (<[w_next w := ino]> (w_fds w))
                   (set_inodes (<[ino := []]> (w_inodes w))
                     (set_dir (<[p := ino]> (w_dir w)) w)))))
        | None =>
            (inr (S (w_next w)),
             logged (CCreate p) (Opened (S (w_next w)))
               (set_next (S (S (w_next w)))
                 (set_fds (<[S (w_next w) := w_next w]> (w_fds w))
                   (set_inodes (<[w_next w := []]> (w_inodes w))
                     (set_dir (<[p := w_next w]> (w_dir w)) w)))))
        end
    end.
Proof.
  unfold os_Create, injected, bind, next_fault, get, put, emit, ret, logged, open_fd; simpl.
  destruct (head (w_oracle w)) as [[ft|]|]; simpl; try done;
    destruct (w_dir w !! p); done.
Qed.

Lemma os_OpenAppend_eq p w :
  os_OpenAppend p w =
    match injected w with
    | Some e => (inl e, logged (COpenAppend p) (Failed e) w)
    | None =>
        match w_dir w !! p with
        | Some ino =>
            (inr (w_next w),
             logged (COpenAppend p) (Opened (w_next w))
               (set_next (S (w_next w)) (set_fds (<[w_next w := ino]> (w_fds w)) w)))
        | None => (inl ErrNotExist, logged (COpenAppend p) (Failed ErrNotExist) w)
        end
    end.
Proof.
  unfold os_OpenAppend, injected, bind, next_fault, get, put, emit, ret, logged, open_fd; simpl.
  destruct (head (w_oracle w)) as [[ft|]|]; simpl; try done;
    destruct (w_dir w !! p); done.
Qed.

Lemma os_Stat_eq p w :
  os_Stat p w =
    match injected w with
    | Some e => (inl e, logged (CStat p) (Failed e) w)
    | None =>
        match content w p with
        | Some c => (inr (Z.of_nat (length c)), logged (CStat p) (Size (Z.of_nat (length c))) w)
        | None => (inl ErrNotExist, logged (CStat p) (Failed ErrNotExist) w)
        end
    end.
Proof.
  unfold os_Stat, injected, bind, next_fault, get, put, emit, ret, logged; simpl.
  unfold content; simpl.
  destruct (head (w_oracle w)) as [[ft|]|]; simpl; try done;
    destruct (w_dir w !! p); done.
Qed.

Lemma os_MkdirAllDir_eq p w :
  os_MkdirAllDir p w =
    (injected w, logged (CMkdirAllDir p) (reported (injected w)) w).
Proof.
  unfold os_MkdirAllDir, injected, bind, next_fault, get, put, emit, ret, logged; simpl.
  destruct (head (w_oracle w)) as [[ft|]|]; done.
Qed.

Lemma file_Close_eq h w :
  file_Close h w =
    match w_fds w !! h with
    | None => (Some ErrClosed, logged (CClose h) (Failed ErrClosed) w)
    | Some _ =>
        (injected w,
         logged (CClose h) (reported (injected w)) (set_fds (delete h (w_fds w)) w))
    end.
Proof.
  unfold file_Close, injected, bind, next_fault, get, put, emit, ret, logged; simpl.
  destruct (w_fds w !! h); destruct (head (w_oracle w)) as [[ft|]|]; done.
Qed.

Lemma file_Write_eq h b w :
  file_Write h b w =
    match w_fds w !! h with
    | None => ((0%nat, Some ErrClosed), logged (CWrite h b) (Wrote 0 (Some ErrClosed)) w)
    | Some ino =>
        match default None (head (w_oracle w)) with
        | Some ft =>
            let n := Nat.min (f_partial ft) (length b) in
            ((n, Some (ErrIO (f_code ft))),
             logged (CWrite h b) (Wrote n (Some (ErrIO (f_code ft))))
               (append_inode ino (take n b) w))
        | None =>
            ((length b, None),
             logged (CWrite h b) (Wrote (length b) None) (append_inode ino b w))
        end
    end.
Proof.
  unfold file_Write, bind, next_fault, get, put, emit, ret, logged; simpl.
  destruct (w_fds w !! h); destruct (head (w_oracle w)) as [[ft|]|]; done.
Qed.

(** ** The renaming loop *)

Lemma injected_not_missing w e : injected w = Some e → IsNotExist e = false.
Proof.
  unfold injected. destruct (default None (head (w_oracle w))); simpl; [|done].
  by intros [= <-].
Qed.

Lemma renames_S p n :
  renames p (S n) =
    CRename (oldPath p (S n)) (backupPath p (Z.of_nat (S n))) :: renames p n.
Proof.
  unfold renames. rewrite seq_S, rev_app_distr. simpl. f_equal.
  unfold oldPath. destruct n as [|n]; [done|].
  case_decide; [|lia]. done.
Qed.

Lemma renamed_lookup_new old new d :
  d !! new = None → renamed old new d !! new = d !! old.
Proof.
  unfold renamed. intros Hnew. destruct (d !! old) eqn:E.
  - by rewrite lookup_insert_eq.
  - done.
Qed.

Lemma renamed_lookup_old old new d :
  old ≠ new → renamed old new d !! old = None.
Proof.
  unfold renamed. intros Hne. destruct (d !! old) eqn:E; [|done].
  rewrite lookup_insert_ne by done. apply lookup_delete_eq.
Qed.

Lemma renamed_lookup_other old new d q :
  q ≠ old → q ≠ new → renamed old new d !! q = d !! q.
Proof.
  unfold renamed. intros H1 H2. destruct (d !! old) eqn:E; [|done].
  rewrite lookup_insert_ne by done. by rewrite lookup_delete_ne.
Qed.

Lemma oldPath_one p : oldPath p 1 = p.
Proof. done. Qed.

Lemma oldPath_SS p j : oldPath p (S (S j)) = backupPath p (Z.of_nat (S j)).
Proof.
  unfold oldPath. case_decide; [|lia]. f_equal. lia.
Qed.

Lemma oldPath_ne_backup p i j : (i ≤ j)%nat → oldPath p i ≠ backupPath p (Z.of_nat j).
Proof.
  intros Hle. unfold oldPath. case_decide.
  - intros H'. apply backupPath_inj in H'. lia.
  - intros H'. symmetry in H'. by apply backupPath_ne_path in H'.
Qed.

Lemma shifted_other p n d q :
  q ≠ p → (∀ i, (1 ≤ i ≤ n)%nat → q ≠ backupPath p (Z.of_nat i)) →
  shifted p n d !! q = d !! q.
Proof.
  revert d. induction n as [|j IH]; intros d Hp Hq; [done|].
  cbn [shifted]. rewrite IH; [|done|intros i Hi; apply Hq; lia].
  apply renamed_lookup_other; [|apply Hq; lia].
  destruct j as [|j].
  - by rewrite oldPath_one.
  - rewrite oldPath_SS. apply Hq. lia.
Qed.

(** Every slot receives what its source held: nothing is overwritten
    before it has moved on. *)
Lemma shifted_lookup p n d i :
  d !! backupPath p (Z.of_nat n) = None →
  (1 ≤ i ≤ n)%nat →
  shifted p n d !! backupPath p (Z.of_nat i) = d !! oldPath p i.
Proof.
  revert d. induction n as [|j IH]; intros d Hfree Hi; [lia|].
  cbn [shifted].
  set (d1 := renamed (oldPath p (S j)) (backupPath p (Z.of_nat (S j))) d).
  destruct (decide (i = S j)) as [->|Hne].
  - rewrite shifted_other.
    + by apply renamed_lookup_new.
    + apply backupPath_ne_path.
    + intros k Hk H'. apply backupPath_inj in H'. lia.
  - destruct j as [|j]; [lia|].
    rewrite IH; [| |lia].
    + apply renamed_lookup_other.
      * rewrite oldPath_SS. apply oldPath_ne_backup. lia.
      * apply oldPath_ne_backup. lia.
    + subst d1. rewrite oldPath_SS. apply renamed_lookup_old.
      intros H'. apply backupPath_inj in H'. lia.
Qed.

Lemma shifted_lookup_path p n d :
  (1 ≤ n)%nat → shifted p n d !! p = None.
Proof.
  revert d. induction n as [|j IH]; intros d Hn; [lia|].
  cbn [shifted]. destruct j as [|j].
  - simpl. rewrite oldPath_one. apply renamed_lookup_old.
    intros H'. symmetry in H'. by apply backupPath_ne_path in H'.
  - apply IH. lia.
Qed.

Lemma drop_tail {A} (l : list A) n : drop n (tail l) = drop (S n) l.
Proof. destruct l; [simpl; apply drop_nil|done]. Qed.

Lemma fatal_injected w e : injected w = Some e → fatal (Some e) = Some (Wrap e).
Proof. intros H. simpl. by rewrite (injected_not_missing w e H). Qed.

(** A loop that ends without error has issued its renames in order, each
    with a tolerated outcome, and leaves the directory shifted. *)
Lemma shiftBackups_ok p n w w' :
  shiftBackups p n w = (None, w') →
  ∃ evs,
    w' = set_trace (w_trace w ++ evs)
           (set_oracle (drop n (w_oracle w)) (set_dir (shifted p n (w_dir w)) w)) ∧
    ev_call <$> evs = renames p n ∧
    Forall tolerated evs.
Proof.
  revert w. induction n as [|j IH]; intros w H.
  - injection H as <-. exists []. split; [|done].
    rewrite app_nil_r, drop_0. by destruct w.
  - cbn [shiftBackups] in H. unfold bind in H. rewrite os_Rename_eq in H.
    destruct (injected w) as [e|] eqn:Einj.
    { rewrite (fatal_injected w e Einj) in H. discriminate. }
    cbn [shifted]. unfold renamed.
    destruct (w_dir w !! oldPath p (S j)) as [ino|] eqn:Eold; simpl in H.
    + apply IH in H as (evs & -> & Hcalls & Htol).
      exists (Ev (CRename (oldPath p (S j)) (backupPath p (Z.of_nat (S j)))) Done :: evs).
      split; [|split].
      * unfold logged, set_trace, set_oracle, set_dir; simpl.
        rewrite <- app_assoc, drop_tail. done.
      * rewrite renames_S, fmap_cons. by f_equal.
      * constructor; [by left|done].
    + apply IH in H as (evs & -> & Hcalls & Htol).
      exists (Ev (CRename (oldPath p (S j)) (backupPath p (Z.of_nat (S j))))
                 (Failed ErrNotExist) :: evs).
      split; [|split].
      * unfold logged, set_trace, set_oracle, set_dir; simpl.
        rewrite <- app_assoc, drop_tail. done.
      * rewrite renames_S, fmap_cons. by f_equal.
      * constructor; [by right|done].
Qed.

(** ** Rotation *)

Lemma set_file_id r : file r = None → set_file None r = r.
Proof. destruct r; simpl; by intros ->. Qed.

(** The first step of [rotate]: close the handle and drop it, whatever the
    close says. *)
Lemma rotate_held r f w :
  file r = Some f →
  rotate r w =
    match w_fds w !! f with
    | None => (Some (Wrap ErrClosed), set_file None r,
               logged (CClose f) (Failed ErrClosed) w)
    | Some _ =>
        match injected w with
        | Some e => (Some (Wrap e), set_file None r,
                     logged (CClose f) (Failed e) (set_fds (delete f (w_fds w)) w))
        | None => rotate (set_file None r)
                    (logged (CClose f) Done (set_fds (delete f (w_fds w)) w))
        end
    end.
Proof.
  intros Hf. unfold rotate at 1. unfold bind. rewrite Hf.
  unfold bind. rewrite file_Close_eq.
  destruct (w_fds w !! f); [|done].
  destruct (injected w); [done|]. done.
Qed.

(** A rotation that succeeds has closed the held handle without error and
    then run as if no handle had been held. *)
Lemma rotate_ok_close r w r' w' :
  rotate r w = (None, r', w') →
  ∃ w1, rotate (set_file None r) w1 = (None, r', w') ∧
        w_trace w1 = w_trace w ++ closing r ∧
        w_dir w1 = w_dir w ∧ w_inodes w1 = w_inodes w ∧
        w_next w1 = w_next w.
Proof.
  intros H. unfold closing. destruct (file r) as [f|] eqn:Ef.
  - rewrite (rotate_held r f w Ef) in H.
    destruct (w_fds w !! f); [|discriminate].
    destruct (injected w); [discriminate|].
    eexists. split; [exact H|]. done.
  - exists w. rewrite set_file_id by done. rewrite app_nil_r. done.
Qed.

Lemma pruneBackups_ok r w w' :
  1 ≤ maxBackups r →
  pruneBackups r w = (None, w') →
  ∃ evs,
    w' = set_trace (w_trace w ++ evs)
           (set_oracle (drop (S (Z.to_nat (maxBackups r))) (w_oracle w))
             (set_dir (shifted (path r) (Z.to_nat (maxBackups r))
                               (delete (backupPath (path r) (maxBackups r)) (w_dir w))) w)) ∧
    ev_call <$> evs =
      CRemove (backupPath (path r) (maxBackups r))
        :: renames (path r) (Z.to_nat (maxBackups r)) ∧
    Forall tolerated evs.
Proof.
  intros HN H. unfold pruneBackups in H.
  destruct (maxBackups r <? 1) eqn:Elt; [lia|].
  unfold bind in H. rewrite os_Remove_eq in H.
  destruct (injected w) as [e|] eqn:Einj.
  { rewrite (fatal_injected w e Einj) in H. discriminate. }
  destruct (w_dir w !! backupPath (path r) (maxBackups r)) as [ino|] eqn:Eold; simpl in H.
  - apply shiftBackups_ok in H as (evs & -> & Hcalls & Htol).
    exists (Ev (CRemove (backupPath (path r) (maxBackups r))) Done :: evs).
    split; [|split].
    + unfold logged, set_trace, set_oracle, set_dir; simpl.
      by rewrite <- app_assoc, drop_tail.
    + rewrite fmap_cons. by f_equal.
    + constructor; [by left|done].
  - apply shiftBackups_ok in H as (evs & -> & Hcalls & Htol).
    exists (Ev (CRemove (backupPath (path r) (maxBackups r))) (Failed ErrNotExist) :: evs).
    split; [|split].
    + unfold logged, set_trace, set_oracle, set_dir; simpl.
      rewrite <- app_assoc, drop_tail. by rewrite (delete_id _ _ Eold).
    + rewrite fmap_cons. by f_equal.
    + constructor; [by right|done].
Qed.

Lemma rotate_unheld_ok r w r' w' :
  file r = None →
  1 ≤ maxBackups r →
  rotate r w = (None, r', w') →
  ∃ evs h,
    w_trace w' = w_trace w ++ evs ++ [Ev (CCreate (path r)) (Opened h)] ∧
    ev_call <$> evs =
      CRemove (backupPath (path r) (maxBackups r))
        :: renames (path r) (Z.to_nat (maxBackups r)) ∧
    Forall tolerated evs ∧
    r' = set_size 0 (set_file (Some h) r) ∧
    w_dir w' = <[path r := w_next w]>
                 (shifted (path r) (Z.to_nat (maxBackups r))
                    (delete (backupPath (path r) (maxBackups r)) (w_dir w))) ∧
    w_inodes w' = <[w_next w := []]> (w_inodes w) ∧
    w_fds w' = <[h := w_next w]> (w_fds w) ∧
    h = S (w_next w) ∧ w_next w' = S h.
Proof.
  intros Hf HN H. unfold rotate, bind in H. rewrite Hf in H.
  unfold ret at 1 in H.
  destruct (pruneBackups r w) as [[e|] w1] eqn:Ep; [discriminate|].
  apply pruneBackups_ok in Ep as (evs & -> & Hcalls & Htol); [|done].
  rewrite os_Create_eq in H.
  match type of H with context [injected ?x] => destruct (injected x) end;
    [discriminate|].
  cbn [w_dir set_trace set_oracle set_dir] in H.
  rewrite shifted_lookup_path in H by lia.
  injection H as <- <-.
  exists evs, (S (w_next w)). simpl. rewrite <- app_assoc. done.
Qed.

(** C1. With [maxBackups = N >= 1], a rotation that succeeds has issued,
    after closing the held handle: the removal of path-N, then the renames
    of path-(i-1) (the live file when i = 1) to path-i for i = N down to
    1, then the creation of the live file, and nothing else; the removal
    and the renames ended well or with "does not exist".  The rotator
    then holds the handle that the creation returned, on a new empty
    file, and its size is 0.  Every slot path-i holds exactly the file
    its source held before: no backup was overwritten before it moved. *)
Theorem rotate_shifts_backups r w r' w' :
  1 ≤ maxBackups r →
  rotate r w = (None, r', w') →
  ∃ evs h,
    w_trace w' = w_trace w ++ closing r ++ evs ++ [Ev (CCreate (path r)) (Opened h)] ∧
    ev_call <$> evs =
      CRemove (backupPath (path r) (maxBackups r))
        :: renames (path r) (Z.to_nat (maxBackups r)) ∧
    Forall tolerated evs ∧
    file r' = Some h ∧ size r' = 0 ∧
    w_fds w' !! h = Some (w_next w) ∧
    w_dir w' !! path r = Some (w_next w) ∧
    w_inodes w' = <[w_next w := []]> (w_inodes w) ∧
    (∀ i, 1 ≤ i ≤ maxBackups r →
          w_dir w' !! backupPath (path r) i =
          w_dir w !! (if i =? 1 then path r else backupPath (path r) (i - 1))).
Proof.
  intros HN H.
  destruct (rotate_ok_close r w r' w' H) as (w1 & H1 & Htr & Hd & Hi & Hn).
  apply rotate_unheld_ok in H1 as (evs & h & Ht & Hc & Htol & -> & Hdir & Hino & Hfds & Hh & _);
    [|done|done].
  simpl in *. exists evs, h. rewrite Ht, Htr, Hino, Hfds, Hdir, Hd, Hi, Hn.
  rewrite <- app_assoc. rewrite !lookup_insert_eq.
  repeat split; try done.
  intros i Hi'.
  rewrite lookup_insert_ne by (intros E; symmetry in E; by apply backupPath_ne_path in E).
  replace i with (Z.of_nat (Z.to_nat i)) at 1 by lia.
  rewrite shifted_lookup; [| |lia].
  - unfold oldPath. case_decide.
    + destruct (Z.eqb_spec i 1); [lia|].
      rewrite lookup_delete_ne; [by rewrite Z2Nat.id by lia|].
      intros E. apply backupPath_inj in E. lia.
    + destruct (Z.eqb_spec i 1); [|lia].
      rewrite lookup_delete_ne; [done|]. apply backupPath_ne_path.
  - rewrite Z2Nat.id by lia. apply lookup_delete_eq.
Qed.

Lemma injected_quiet w : w_oracle w = [] → injected w = None.
Proof. unfold injected. by intros ->. Qed.

(** Rotation without a held handle in the mode that keeps no backup. *)
Lemma rotate_unheld_zero r w :
  file r = None →
  maxBackups r < 1 →
  rotate r w =
    match injected w with
    | Some e => (Some (Wrap e), r, logged (CRemove (path r)) (Failed e) w)
    | None =>
        let o := match w_dir w !! path r with
                 | Some _ => Done
                 | None => Failed ErrNotExist
                 end in
        let w1 := logged (CRemove (path r)) o w in
        match injected w1 with
        | Some e => (Some (Wrap e), r,
                     logged (CCreate (path r)) (Failed e)
                       (set_dir (delete (path r) (w_dir w)) w1))
        | None =>
            (None, set_size 0 (set_file (Some (S (w_next w))) r),
             logged (CCreate (path r)) (Opened (S (w_next w)))
               (set_next (S (S (w_next w)))
                 (set_fds (<[S (w_next w) := w_next w]> (w_fds w))
                   (set_inodes (<[w_next w := []]> (w_inodes w))
                     (set_dir (<[path r := w_next w]> (w_dir w)) w1)))))
        end
    end.
Proof.
  intros Hf HN. unfold rotate, bind. rewrite Hf. unfold ret at 1.
  unfold pruneBackups. destruct (maxBackups r <? 1) eqn:Elt; [|lia].
  unfold bind. rewrite os_Remove_eq.
  destruct (injected w) as [e|] eqn:Einj.
  { unfold ret. by rewrite (fatal_injected w e Einj). }
  destruct (w_dir w !! path r) as [ino|] eqn:Ep; unfold ret; cbn [fatal IsNotExist]; cbv beta.
  - rewrite os_Create_eq. unfold injected. wsimpl.
    destruct (default None (head (tail (w_oracle w)))); simpl; [done|].
    rewrite lookup_delete_eq. by rewrite insert_delete_eq.
  - rewrite os_Create_eq. unfold injected. wsimpl.
    destruct (default None (head (tail (w_oracle w)))); simpl.
    + by rewrite (delete_id _ _ Ep).
    + by rewrite Ep.
Qed.

(** ** Every operation only appends to the log *)

Lemma runs_nil w : runs w w [].
Proof. split; [by rewrite app_nil_r|by rewrite drop_0]. Qed.

Lemma runs_app w w1 w2 e1 e2 :
  runs w w1 e1 → runs w1 w2 e2 → runs w w2 (e1 ++ e2).
Proof.
  intros [H1 H2] [H3 H4]. split.
  - by rewrite H3, H1, app_assoc.
  - rewrite H4, H2, drop_drop, length_app. done.
Qed.

Lemma runs_cons w w1 w2 e1 e2 :
  runs w w1 [e1] → runs w1 w2 e2 → runs w w2 (e1 :: e2).
Proof. apply (runs_app w w1 w2 [e1] e2). Qed.

Lemma runs_logged c o w0 w :
  w_trace w0 = w_trace w → w_oracle w0 = w_oracle w →
  runs w (logged c o w0) [Ev c o].
Proof.
  intros Ht Ho. split; wsimpl; rewrite ?Ht, ?Ho; [done|].
  by destruct (w_oracle w).
Qed.

Lemma runs_quiet w w' evs : runs w w' evs → w_oracle w = [] → w_oracle w' = [].
Proof. intros [_ H] Hq. rewrite H, Hq. apply drop_nil. Qed.

Lemma os_Stat_runs p w : ∃ o, runs w (snd (os_Stat p w)) [Ev (CStat p) o].
Proof. rewrite os_Stat_eq. repeat case_match; eexists; by apply runs_logged. Qed.

Lemma os_MkdirAllDir_runs p w :
  ∃ o, runs w (snd (os_MkdirAllDir p w)) [Ev (CMkdirAllDir p) o].
Proof. rewrite os_MkdirAllDir_eq. eexists; by apply runs_logged. Qed.

Lemma os_Create_runs p w : ∃ o, runs w (snd (os_Create p w)) [Ev (CCreate p) o].
Proof. rewrite os_Create_eq. repeat case_match; eexists; by apply runs_logged. Qed.

Lemma os_OpenAppend_runs p w :
  ∃ o, runs w (snd (os_OpenAppend p w)) [Ev (COpenAppend p) o].
Proof. rewrite os_OpenAppend_eq. repeat case_match; eexists; by apply runs_logged. Qed.

Lemma os_Remove_runs p w : ∃ o, runs w (snd (os_Remove p w)) [Ev (CRemove p) o].
Proof. rewrite os_Remove_eq. repeat case_match; eexists; by apply runs_logged. Qed.

Lemma os_Rename_runs old new w :
  ∃ o, runs w (snd (os_Rename old new w)) [Ev (CRename old new) o].
Proof. rewrite os_Rename_eq. repeat case_match; eexists; by apply runs_logged. Qed.

Lemma file_Close_runs h w : ∃ o, runs w (snd (file_Close h w)) [Ev (CClose h) o].
Proof. rewrite file_Close_eq. repeat case_match; eexists; by apply runs_logged. Qed.

Lemma file_Write_runs h b w : ∃ o, runs w (snd (file_Write h b w)) [Ev (CWrite h b) o].
Proof. rewrite file_Write_eq. repeat case_match; eexists; by apply runs_logged. Qed.

Lemma quietly_refl w : quietly w w.
Proof. exists []. split; [apply runs_nil|constructor]. Qed.

Lemma quietly_one c o w w1 :
  runs w w1 [Ev c o] → is_write c = false → quietly w w1.
Proof. intros R Hc. exists [Ev c o]. split; [done|]. by repeat constructor. Qed.

Lemma quietly_step c o w w1 w2 :
  runs w w1 [Ev c o] → is_write c = false → quietly w1 w2 → quietly w w2.
Proof.
  intros R Hc (evs & R' & Hs). exists (Ev c o :: evs).
  split; [by eapply runs_cons|]. by constructor.
Qed.

Lemma quietly_runs w w' : quietly w w' → ∃ evs, runs w w' evs.
Proof. intros (evs & R & _). eauto. Qed.

Lemma shiftBackups_quietly p n w : quietly w (snd (shiftBackups p n w)).
Proof.
  revert w. induction n as [|j IH]; intros w; [apply quietly_refl|].
  cbn [shiftBackups].
  step_with (os_Rename_runs (oldPath p (S j)) (backupPath p (Z.of_nat (S j))) w).
  destruct (fatal a).
  - by eapply quietly_one.
  - eapply quietly_step; [done|done|apply IH].
Qed.

Lemma pruneBackups_quietly r w : quietly w (snd (pruneBackups r w)).
Proof.
  unfold pruneBackups. destruct (maxBackups r <? 1).
  - step_with (os_Remove_runs (path r) w). by eapply quietly_one.
  - step_with (os_Remove_runs (backupPath (path r) (maxBackups r)) w).
    destruct (fatal a).
    + by eapply quietly_one.
    + eapply quietly_step; [done|done|apply shiftBackups_quietly].
Qed.

Lemma pruneBackups_runs r w : ∃ evs, runs w (snd (pruneBackups r w)) evs.
Proof. apply quietly_runs, pruneBackups_quietly. Qed.

Lemma rotate_unheld_quietly r w :
  file r = None → quietly w (snd (rotate r w)).
Proof.
  intros Hf. unfold rotate. rewrite Hf. unfold bind at 1, ret at 1.
  unfold bind at 1.
  destruct (pruneBackups_quietly r w) as (e1 & R1 & S1).
  destruct (pruneBackups r w) as [[e|] w1]; cbn [snd] in R1.
  - by exists e1.
  - step_with (os_Create_runs (path r) w1).
    exists (e1 ++ [Ev (CCreate (path r)) o]).
    split; [destruct a; by eapply runs_app|].
    apply Forall_app. split; [done|]. by repeat constructor.
Qed.

(** [rotate] never writes to a file. *)
Lemma rotate_quietly r w : quietly w (snd (rotate r w)).
Proof.
  destruct (file r) as [f|] eqn:Ef; [|by apply rotate_unheld_quietly].
  rewrite (rotate_held r f w Ef).
  destruct (file_Close_runs f w) as [o R]. rewrite file_Close_eq in R.
  destruct (w_fds w !! f).
  - destruct (injected w).
    + by eapply quietly_one.
    + eapply quietly_step; [done|done|]. by apply rotate_unheld_quietly.
  - by eapply quietly_one.
Qed.

Lemma rotate_runs r w : ∃ evs, runs w (snd (rotate r w)) evs.
Proof. apply quietly_runs, rotate_quietly. Qed.

Lemma rotateIfNeeded_runs b r w : ∃ evs, runs w (snd (rotateIfNeeded b r w)) evs.
Proof.
  unfold rotateIfNeeded. case_match; [apply rotate_runs|].
  exists []. apply runs_nil.
Qed.

(** Opening the file never writes to it. *)
Lemma openIfNeeded_quietly r w : quietly w (snd (openIfNeeded r w)).
Proof.
  unfold openIfNeeded. destruct (file r); [apply quietly_refl|].
  step_with (os_Stat_runs (path r) w). destruct a as [err|sz].
  - destruct (IsNotExist err); [|by eapply quietly_one].
    step_with (os_MkdirAllDir_runs (path r) w0).
    eapply quietly_step; [done|done|].
    destruct a as [e|].
    + by eapply quietly_one.
    + step_with (os_Create_runs (path r) w1).
      eapply quietly_step; [done|done|].
      destruct a; by eapply quietly_one.
  - step_with (os_OpenAppend_runs (path r) w0).
    eapply quietly_step; [done|done|].
    destruct a; by eapply quietly_one.
Qed.

Lemma openIfNeeded_runs r w : ∃ evs, runs w (snd (openIfNeeded r w)) evs.
Proof. apply quietly_runs, openIfNeeded_quietly. Qed.

Lemma writeFile_runs b r w : ∃ evs, runs w (snd (writeFile b r w)) evs.
Proof.
  unfold writeFile. destruct (file r) as [f|].
  - step_with (file_Write_runs f b w). destruct a. eexists. exact R.
  - exists []. apply runs_nil.
Qed.

Lemma writeOpened_runs b r w : ∃ evs, runs w (snd (writeOpened b r w)) evs.
Proof.
  unfold writeOpened, bind.
  destruct (rotateIfNeeded_runs b r w) as [e1 R1].
  destruct (rotateIfNeeded b r w) as [[[e|] r1] w1]; cbn [snd] in R1.
  - eexists. exact R1.
  - destruct (writeFile_runs b r1 w1) as [e2 R2]. eexists. by eapply runs_app.
Qed.

Lemma Write_runs b r w : ∃ evs, runs w (snd (Write b r w)) evs.
Proof.
  unfold Write, bind.
  destruct (openIfNeeded_runs r w) as [e1 R1].
  destruct (openIfNeeded r w) as [[e|r1] w1]; cbn [snd] in R1.
  - eexists. exact R1.
  - destruct (writeOpened_runs b r1 w1) as [e2 R2].
    unfold writeOpened, bind in R2. eexists. by eapply runs_app.
Qed.

Lemma Close_runs r w : ∃ evs, runs w (snd (Close r w)) evs.
Proof.
  unfold Close. destruct (file r) as [f|].
  - step_with (file_Close_runs f w). eexists. exact R.
  - exists []. apply runs_nil.
Qed.

Lemma Write_eq b r w :
  Write b r w =
    match openIfNeeded r w with
    | (inl e, w1) => ((0, Some e), r, w1)
    | (inr r1, w1) => writeOpened b r1 w1
    end.
Proof.
  unfold Write, writeOpened, bind.
  destruct (openIfNeeded r w) as [[e|r1] w1]; done.
Qed.

(** A [Write] without a handle starts by looking the path up. *)
Lemma Write_unheld_stats b r w :
  file r = None →
  ∃ o rest, w_trace (snd (Write b r w)) = w_trace w ++ Ev (CStat (path r)) o :: rest.
Proof.
  intros Hf. rewrite Write_eq.
  assert (∃ o w0 rest, runs w w0 [Ev (CStat (path r)) o] ∧
            runs w0 (snd (openIfNeeded r w)) rest) as (o & w0 & rest & R0 & R1).
  { unfold openIfNeeded. rewrite Hf.
    step_with (os_Stat_runs (path r) w). exists o, w0.
    destruct a as [err|sz].
    - destruct (IsNotExist err); [|eexists; split; [done|apply runs_nil]].
      step_with (os_MkdirAllDir_runs (path r) w0).
      destruct a as [e|].
      + eexists. split; [done|]. exact R0.
      + step_with (os_Create_runs (path r) w1).
        eexists. split; [done|]. destruct a; by eapply runs_cons.
    - step_with (os_OpenAppend_runs (path r) w0).
      eexists. split; [done|]. destruct a; exact R0. }
  destruct (openIfNeeded r w) as [[e|r1] w1]; cbn [snd] in *.
  - exists o, rest. by destruct (runs_cons _ _ _ _ _ R0 R1) as [-> _].
  - destruct (writeOpened_runs b r1 w1) as [e2 R2].
    exists o, (rest ++ e2).
    by destruct (runs_cons _ _ _ _ _ R0 (runs_app _ _ _ _ _ R1 R2)) as [-> _].
Qed.

(** C6. When [rotate] is entered with a handle, the handle is closed and
    the field is cleared whatever the close reports: either the close
    failed and [rotate] returns that error, wrapped, with the field
    cleared, or the rest of the rotation runs on the rotator with the
    field cleared.  After a failed close the log holds the close and
    nothing else, no file has been removed, renamed or created, and the
    next [Write] starts by looking the path up again. *)
Theorem rotate_close_first r f w :
  file r = Some f →
  let cerr := fst (file_Close f w) in
  let w1 := snd (file_Close f w) in
  (cerr = None → rotate r w = rotate (set_file None r) w1) ∧
  (∀ e, cerr = Some e →
        rotate r w = (Some (Wrap e), set_file None r, w1) ∧
        w_trace w1 = w_trace w ++ [Ev (CClose f) (Failed e)] ∧
        w_dir w1 = w_dir w ∧ w_inodes w1 = w_inodes w ∧
        ∀ b, ∃ o rest,
          w_trace (snd (Write b (set_file None r) w1)) =
            w_trace w1 ++ Ev (CStat (path r)) o :: rest).
Proof.
  intros Hf. cbv zeta. rewrite (rotate_held r f w Hf), file_Close_eq.
  destruct (w_fds w !! f) as [ino|]; cbn [fst snd].
  - destruct (injected w) as [e0|]; split; try done.
    intros e [= ->]. repeat split; try done.
    intros b. exact (Write_unheld_stats b (set_file None r) _ eq_refl).
  - split; [done|]. intros e [= <-]. repeat split; try done.
    intros b. exact (Write_unheld_stats b (set_file None r) _ eq_refl).
Qed.

(** C7 as amended.  With [maxBackups < 1], a rotation that succeeds has
    issued, after closing the held handle, the removal of the live file
    and its creation, and nothing else; the removal ended well or with
    "does not exist".  Afterwards the live file is a new empty file and
    every other directory entry is as it was: the rotation neither makes
    nor removes a backup, so none exists afterwards if none did before. *)
Theorem rotate_zero_backups r w r' w' :
  maxBackups r < 1 →
  rotate r w = (None, r', w') →
  ∃ o h,
    w_trace w' = w_trace w ++ closing r
                   ++ [Ev (CRemove (path r)) o; Ev (CCreate (path r)) (Opened h)] ∧
    (o = Done ∨ o = Failed ErrNotExist) ∧
    file r' = Some h ∧ size r' = 0 ∧
    w_fds w' !! h = Some (w_next w) ∧
    content w' (path r) = Some [] ∧
    w_dir w' = <[path r := w_next w]> (w_dir w) ∧
    w_inodes w' = <[w_next w := []]> (w_inodes w) ∧
    ((∀ i, w_dir w !! backupPath (path r) i = None) →
     ∀ i, w_dir w' !! backupPath (path r) i = None).
Proof.
  intros HN H.
  destruct (rotate_ok_close r w r' w' H) as (w1 & H1 & Htr & Hd & Hi & Hn).
  rewrite rotate_unheld_zero in H1 by done.
  destruct (injected w1); [discriminate|]. cbv zeta in H1.
  match type of H1 with context [injected ?x] => destruct (injected x) end;
    [discriminate|].
  injection H1 as <- <-. wsimpl.
  eexists _, _. rewrite Htr, Hd, Hi, Hn, <- !app_assoc.
  split; [reflexivity|]. simpl.
  split; [destruct (w_dir w !! path r); auto|].
  unfold content, inode_data. wsimpl. rewrite !lookup_insert_eq. simpl.
  rewrite lookup_insert_eq. repeat split; try done.
  intros Hnone i. rewrite lookup_insert_ne; [done|].
  intros E. symmetry in E. by apply backupPath_ne_path in E.
Qed.

(** ** Runs without injected faults *)

Lemma quiet_logged c o w : w_oracle w = [] → w_oracle (logged c o w) = [].
Proof. wsimpl. by intros ->. Qed.

Lemma shiftBackups_quiet p n w :
  w_oracle w = [] → fst (shiftBackups p n w) = None.
Proof.
  revert w. induction n as [|j IH]; intros w Hq; [done|].
  cbn [shiftBackups]. unfold bind. rewrite os_Rename_eq, (injected_quiet w Hq).
  destruct (w_dir w !! oldPath p (S j)); cbn [fatal IsNotExist];
    apply IH; by apply quiet_logged.
Qed.

Lemma pruneBackups_quiet r w :
  w_oracle w = [] → fst (pruneBackups r w) = None.
Proof.
  intros Hq. unfold pruneBackups, bind.
  destruct (maxBackups r <? 1); rewrite os_Remove_eq, (injected_quiet w Hq).
  - by destruct (w_dir w !! path r).
  - destruct (w_dir w !! backupPath (path r) (maxBackups r)); cbn [fatal IsNotExist];
      apply shiftBackups_quiet; by apply quiet_logged.
Qed.

(** What every successful rotation establishes, in either mode. *)
Lemma rotate_ok r w r' w' :
  rotate r w = (None, r', w') →
  r' = set_size 0 (set_file (Some (S (w_next w))) r) ∧
  w_fds w' !! S (w_next w) = Some (w_next w) ∧
  w_dir w' = rotated r (w_next w) (w_dir w) ∧
  w_inodes w' = <[w_next w := []]> (w_inodes w) ∧
  w_next w' = S (S (w_next w)).
Proof.
  intros H.
  destruct (rotate_ok_close r w r' w' H) as (w1 & H1 & _ & Hd & Hi & Hn).
  unfold rotated. destruct (Z.ltb_spec (maxBackups r) 1) as [HN|HN].
  - rewrite rotate_unheld_zero in H1 by done.
    destruct (injected w1); [discriminate|]. cbv zeta in H1.
    match type of H1 with context [injected ?x] => destruct (injected x) end;
      [discriminate|].
    injection H1 as <- <-. wsimpl. rewrite Hd, Hi, Hn, lookup_insert_eq. done.
  - apply rotate_unheld_ok in H1 as (evs & h & _ & _ & _ & -> & Hdir & Hino & Hfds & -> & Hnx);
      [|done|done].
    wsimpl. rewrite Hdir, Hino, Hfds, Hnx, Hd, Hi, Hn, lookup_insert_eq. done.
Qed.

(** Without faults, and with a handle that is really open (or none), a
    rotation always succeeds. *)
Lemma rotate_quiet r w :
  w_oracle w = [] →
  (∀ f, file r = Some f → is_Some (w_fds w !! f)) →
  ∃ r' w', rotate r w = (None, r', w').
Proof.
  intros Hq Hopen.
  assert (∀ r0 w0, file r0 = None → w_oracle w0 = [] →
                   ∃ r' w', rotate r0 w0 = (None, r', w')) as Hun.
  { intros r0 w0 Hf0 Hq0. unfold rotate, bind. rewrite Hf0. unfold ret at 1.
    pose proof (pruneBackups_quiet r0 w0 Hq0) as Hp.
    destruct (pruneBackups_runs r0 w0) as [evs R].
    destruct (pruneBackups r0 w0) as [e w1]. cbn [fst snd] in *. subst e.
    rewrite os_Create_eq, (injected_quiet w1 (runs_quiet _ _ _ R Hq0)).
    destruct (w_dir w1 !! path r0); unfold ret; eauto. }
  destruct (file r) as [f|] eqn:Ef; [|by apply Hun].
  rewrite (rotate_held r f w Ef), (injected_quiet w Hq).
  destruct (Hopen f eq_refl) as [ino ->].
  apply Hun; [done|]. by apply quiet_logged.
Qed.

Lemma openIfNeeded_quiet r w :
  w_oracle w = [] →
  file r = None →
  ∃ r1 w1 opening,
    openIfNeeded r w = (inr r1, w1) ∧ runs w w1 opening ∧
    path r1 = path r ∧ maxSize r1 = maxSize r ∧ maxBackups r1 = maxBackups r ∧
    attached r1 w1 ∧
    match w_dir w !! path r with
    | Some ino =>
        (* reopened *)
        ev_call <$> opening = [CStat (path r); COpenAppend (path r)] ∧
        size r1 = Z.of_nat (length (inode_data w ino)) ∧
        w_dir w1 = w_dir w ∧ w_inodes w1 = w_inodes w
    | None =>
        (* recreated *)
        ev_call <$> opening = [CStat (path r); CMkdirAllDir (path r); CCreate (path r)] ∧
        size r1 = 0 ∧
        w_dir w1 = <[path r := w_next w]> (w_dir w) ∧
        w_inodes w1 = <[w_next w := []]> (w_inodes w)
    end.
Proof.
  intros Hq Hf. unfold openIfNeeded, bind. rewrite Hf.
  rewrite os_Stat_eq, (injected_quiet w Hq). unfold content.
  destruct (w_dir w !! path r) as [ino|] eqn:Ep; cbn [fmap option_fmap option_map IsNotExist].
  - rewrite os_OpenAppend_eq. rewrite injected_quiet by by apply quiet_logged.
    wsimpl. rewrite Ep. unfold ret. eexists _, _, [_; _].
    split; [reflexivity|]. split.
    { split; wsimpl; [by rewrite <- app_assoc|by rewrite Hq]. }
    repeat split; try done.
    exists (w_next w), ino. wsimpl. by rewrite lookup_insert_eq.
  - rewrite os_MkdirAllDir_eq. rewrite injected_quiet by by apply quiet_logged.
    rewrite os_Create_eq. rewrite injected_quiet by by do 2 apply quiet_logged.
    wsimpl. rewrite Ep. unfold ret. eexists _, _, [_; _; _].
    split; [reflexivity|]. split.
    { split; wsimpl; [by rewrite <- !app_assoc|by rewrite Hq]. }
    repeat split; try done.
    exists (S (w_next w)), (w_next w). wsimpl. by rewrite !lookup_insert_eq.
Qed.

Lemma writeFile_attached b r w :
  w_oracle w = [] →
  attached r w →
  ∃ r' w' h ino,
    writeFile b r w = ((Z.of_nat (length b), None), r', w') ∧
    r' = set_size (add64 (size r) (Z.of_nat (length b))) r ∧
    w' = logged (CWrite h b) (Wrote (length b) None) (append_inode ino b w) ∧
    file r = Some h ∧ w_fds w !! h = Some ino ∧ w_dir w !! path r = Some ino.
Proof.
  intros Hq (h & ino & Hf & Hfd & Hd). unfold writeFile, bind. rewrite Hf.
  rewrite file_Write_eq, Hfd, Hq. cbn [head default]. unfold ret.
  eexists _, _, h, ino. done.
Qed.

(** Without faults, a write through an attached handle always succeeds in
    full and the payload ends up at the end of the live file. *)
Lemma writeOpened_quiet b r w :
  w_oracle w = [] →
  attached r w →
  ∃ r' w' evs,
    writeOpened b r w = ((Z.of_nat (length b), None), r', w') ∧
    runs w w' evs ∧ attached r' w' ∧ path r' = path r ∧
    ∃ pre, content w' (path r) = Some (pre ++ b).
Proof.
  intros Hq Hatt. unfold writeOpened, bind.
  assert (∃ r1 w1 e1, rotateIfNeeded b r w = (None, r1, w1) ∧ runs w w1 e1 ∧
            attached r1 w1 ∧ path r1 = path r) as (r1 & w1 & e1 & -> & R1 & Hatt1 & Hp1).
  { destruct (rotateIfNeeded_runs b r w) as [e1 R1].
    unfold rotateIfNeeded in *. destruct (add64 _ _ >? maxSize r).
    - destruct (rotate_quiet r w Hq) as (r1 & w1 & Hrot).
      { destruct Hatt as (h & ino & Hf & Hfd & _). intros f Hf'.
        rewrite Hf in Hf'. injection Hf' as <-. eauto. }
      rewrite Hrot in R1. exists r1, w1, e1. split; [done|]. split; [done|].
      apply rotate_ok in Hrot as (-> & Hfd & Hdir & _).
      split; [|done]. exists (S (w_next w)), (w_next w). wsimpl.
      split; [done|]. split; [done|]. rewrite Hdir. unfold rotated.
      destruct (maxBackups r <? 1); apply lookup_insert_eq.
    - exists r, w, []. unfold ret. split; [done|]. split; [apply runs_nil|done]. }
  destruct (writeFile_attached b r1 w1 (runs_quiet _ _ _ R1 Hq) Hatt1)
    as (r' & w' & h & ino & Hw & -> & -> & Hf & Hfd & Hd).
  rewrite Hw. eexists _, _, _. split; [done|]. split.
  { eapply runs_app; [exact R1|]. by apply runs_logged. }
  split; [by exists h, ino|]. split; [done|].
  exists (inode_data w1 ino). unfold content. wsimpl. rewrite <- Hp1, Hd. simpl.
  unfold inode_data at 1. wsimpl. by rewrite lookup_insert_eq.
Qed.

(** Without faults, a write by a rotator that holds no handle reopens the
    file when it exists and recreates it when it does not, then writes the
    whole payload to the end of the live file. *)
Lemma Write_unheld_quiet b r w :
  w_oracle w = [] →
  file r = None →
  ∃ r' w' opening rest,
    Write b r w = ((Z.of_nat (length b), None), r', w') ∧
    w_trace w' = w_trace w ++ opening ++ rest ∧
    ev_call <$> opening =
      match w_dir w !! path r with
      | Some _ => [CStat (path r); COpenAppend (path r)]
      | None => [CStat (path r); CMkdirAllDir (path r); CCreate (path r)]
      end ∧
    attached r' w' ∧ path r' = path r ∧
    ∃ pre, content w' (path r) = Some (pre ++ b).
Proof.
  intros Hq Hf. rewrite Write_eq.
  destruct (openIfNeeded_quiet r w Hq Hf)
    as (r1 & w1 & opening & -> & R1 & Hp & _ & _ & Hatt & Hcase).
  destruct (writeOpened_quiet b r1 w1 (runs_quiet _ _ _ R1 Hq) Hatt)
    as (r' & w' & rest & -> & R2 & Hatt' & Hp' & Hc).
  exists r', w', opening, rest. split; [done|].
  destruct (runs_app _ _ _ _ _ R1 R2) as [-> _]. split; [done|].
  split; [by destruct (w_dir w !! path r); destruct Hcase as [-> _]|].
  rewrite Hp', <- Hp. done.
Qed.

(** ** Close *)

Lemma Close_held r f w :
  file r = Some f →
  Close r w = (Wrap <$> fst (file_Close f w), set_file None r, snd (file_Close f w)).
Proof.
  intros Hf. unfold Close, bind. rewrite Hf.
  by destruct (file_Close f w) as [[e|] w1].
Qed.

Lemma Close_unheld r w : file r = None → Close r w = (None, r, w).
Proof. intros Hf. unfold Close. by rewrite Hf. Qed.

Lemma file_Close_effect f w :
  w_dir (snd (file_Close f w)) = w_dir w ∧
  w_inodes (snd (file_Close f w)) = w_inodes w ∧
  w_fds (snd (file_Close f w)) !! f = None ∧
  w_oracle (snd (file_Close f w)) = tail (w_oracle w) ∧
  w_trace (snd (file_Close f w)) =
    w_trace w ++ [Ev (CClose f) (reported (fst (file_Close f w)))] ∧
  (is_Some (w_fds w !! f) → fst (file_Close f w) = injected w).
Proof.
  rewrite file_Close_eq. destruct (w_fds w !! f) as [ino|] eqn:Efd; wsimpl.
  - rewrite lookup_delete_eq. done.
  - repeat split; try done; by intros [? [=]].
Qed.

(** C8. [Close] releases the held handle; with nothing open it returns
    no error and leaves rotator and system untouched, so a second call in
    a row always returns no error, and so does the first unless the close
    of the file itself failed.  A [Close] issues no call but that close:
    directory and file contents stay as they are.  The [Write] that
    follows looks the path up again, and, without I/O faults, reopens the
    file if it exists, recreates it if not, and writes its payload in
    full. *)
Theorem Close_idempotent r w :
  let '(e1, r1, w1) := Close r w in
  (* the handle is released *)
  file r1 = None ∧ (∀ f, file r = Some f → w_fds w1 !! f = None) ∧
  (* nothing open: nothing happens *)
  (file r = None → e1 = None ∧ r1 = r ∧ w1 = w) ∧
  (* the first call reports what the close of the file reports *)
  (∀ f, file r = Some f → e1 = Wrap <$> fst (file_Close f w)) ∧
  (∀ f, file r = Some f → is_Some (w_fds w !! f) → injected w = None → e1 = None) ∧
  (* the second call *)
  Close r1 w1 = (None, r1, w1) ∧
  (* the disk is left alone *)
  w_dir w1 = w_dir w ∧ w_inodes w1 = w_inodes w ∧
  w_trace w1 = w_trace w ++ close_log r w ∧
  (* the next write *)
  (∀ b, ∃ o rest,
      w_trace (snd (Write b r1 w1)) = w_trace w1 ++ Ev (CStat (path r)) o :: rest) ∧
  (w_oracle w1 = [] → ∀ b, ∃ r2 w2 opening rest pre,
      Write b r1 w1 = ((Z.of_nat (length b), None), r2, w2) ∧
      w_trace w2 = w_trace w1 ++ opening ++ rest ∧
      ev_call <$> opening =
        match w_dir w !! path r with
        | Some _ => [CStat (path r); COpenAppend (path r)]
        | None => [CStat (path r); CMkdirAllDir (path r); CCreate (path r)]
        end ∧
      attached r2 w2 ∧ content w2 (path r) = Some (pre ++ b)).
Proof.
  unfold close_log. destruct (file r) as [f|] eqn:Ef.
  - rewrite (Close_held r f w Ef).
    destruct (file_Close_effect f w) as (Hd & Hi & Hfd & Ho & Ht & He).
    split; [done|]. split; [by intros ? [= <-]|]. split; [done|].
    split; [by intros ? [= <-]|].
    split; [intros ? [= <-] Hopen Hinj; by rewrite (He Hopen), Hinj|].
    split; [by apply Close_unheld|].
    split; [done|]. split; [done|]. split; [done|]. split.
    + intros b. exact (Write_unheld_stats b (set_file None r) _ eq_refl).
    + intros Hq b.
      destruct (Write_unheld_quiet b (set_file None r) _ Hq eq_refl)
        as (r2 & w2 & opening & rest & HW & Htr & Hop & Hatt & _ & pre & Hc).
      exists r2, w2, opening, rest, pre. wsimpl. rewrite Hd in Hop. done.
  - rewrite (Close_unheld r w Ef).
    split; [done|]. split; [done|]. split; [done|]. split; [done|]. split; [done|].
    split; [by apply Close_unheld|].
    split; [done|]. split; [done|]. split; [by rewrite app_nil_r|]. split.
    + intros b. by apply Write_unheld_stats.
    + intros Hq b.
      destruct (Write_unheld_quiet b r w Hq Ef)
        as (r2 & w2 & opening & rest & HW & Htr & Hop & Hatt & _ & pre & Hc).
      by exists r2, w2, opening, rest, pre.
Qed.

(** ** What a failed rotation leaves *)

Lemma shiftBackups_keeps p n w :
  w_inodes (snd (shiftBackups p n w)) = w_inodes w ∧
  w_fds (snd (shiftBackups p n w)) = w_fds w ∧
  w_next (snd (shiftBackups p n w)) = w_next w.
Proof.
  revert w. induction n as [|j IH]; intros w; [done|].
  cbn [shiftBackups]. unfold bind. rewrite os_Rename_eq.
  destruct (injected w) as [e|] eqn:Einj.
  { by rewrite (fatal_injected w e Einj). }
  destruct (w_dir w !! oldPath p (S j)); cbn [fatal IsNotExist];
    match goal with |- context [shiftBackups p j ?x] =>
      destruct (IH x) as (-> & -> & ->) end; done.
Qed.

Lemma pruneBackups_keeps r w :
  w_inodes (snd (pruneBackups r w)) = w_inodes w ∧
  w_fds (snd (pruneBackups r w)) = w_fds w ∧
  w_next (snd (pruneBackups r w)) = w_next w.
Proof.
  unfold pruneBackups, bind. destruct (maxBackups r <? 1); rewrite os_Remove_eq.
  - destruct (injected w); [done|]. by destruct (w_dir w !! path r).
  - destruct (injected w) as [e|] eqn:Einj.
    { by rewrite (fatal_injected w e Einj). }
    destruct (w_dir w !! backupPath (path r) (maxBackups r)); cbn [fatal IsNotExist];
      match goal with |- context [shiftBackups ?p ?n ?x] =>
        destruct (shiftBackups_keeps p n x) as (-> & -> & ->) end; done.
Qed.

(** A rotation that fails leaves the rotator without a handle and every
    file content as it was. *)
Lemma rotate_failure r w e r' w' :
  rotate r w = (Some e, r', w') →
  r' = set_file None r ∧ w_inodes w' = w_inodes w.
Proof.
  intros H.
  assert (∀ r0 w0, file r0 = None → rotate r0 w0 = (Some e, r', w') →
                   r' = r0 ∧ w_inodes w' = w_inodes w0) as Hun.
  { intros r0 w0 Hf0 H0. unfold rotate, bind in H0. rewrite Hf0 in H0.
    unfold ret at 1 in H0.
    destruct (pruneBackups_keeps r0 w0) as (Hi & _ & _).
    destruct (pruneBackups r0 w0) as [[e0|] w1]; cbn [snd] in Hi.
    - injection H0 as _ <- <-. done.
    - rewrite os_Create_eq in H0. destruct (injected w1).
      + injection H0 as _ <- <-. done.
      + by destruct (w_dir w1 !! path r0). }
  destruct (file r) as [f|] eqn:Ef.
  - rewrite (rotate_held r f w Ef) in H. destruct (w_fds w !! f).
    + destruct (injected w).
      * by injection H as _ <- <-.
      * apply Hun in H as [-> ->]; done.
    + by injection H as _ <- <-.
  - apply Hun in H as [-> ->]; [|done]. by rewrite set_file_id.
Qed.

(** ** Opening the file *)

Lemma injected_fault_at w : injected w = (λ ft, ErrIO (f_code ft)) <$> fault_at w 0.
Proof. unfold injected, fault_at. by destruct (w_oracle w). Qed.

Lemma fault_at_logged c o w i : fault_at (logged c o w) i = fault_at w (S i).
Proof. unfold fault_at. wsimpl. by destruct (w_oracle w). Qed.

(** Whenever [openIfNeeded] hands a rotator on, that rotator holds a
    handle; a handle it did not hold before was opened or created at the
    path by this very call, and the size is what the system reported. *)
Lemma openIfNeeded_ok r w r1 w1 :
  openIfNeeded r w = (inr r1, w1) →
  path r1 = path r ∧ maxSize r1 = maxSize r ∧ maxBackups r1 = maxBackups r ∧
  match file r with
  | Some _ => r1 = r ∧ w1 = w
  | None =>
      ∃ h c evs, file r1 = Some h ∧ w_trace w1 = w_trace w ++ evs ∧
                 Ev c (Opened h) ∈ evs ∧
                 (c = CCreate (path r) ∨ c = COpenAppend (path r))
  end.
Proof.
  unfold openIfNeeded. destruct (file r) as [f|] eqn:Ef.
  { by intros [= <- <-]. }
  unfold bind. rewrite os_Stat_eq.
  destruct (injected w) as [e|] eqn:Einj.
  { by rewrite (injected_not_missing w e Einj). }
  destruct (content w (path r)) as [c|]; cbn [IsNotExist].
  - rewrite os_OpenAppend_eq.
    match goal with |- context [injected ?x] => destruct (injected x) end; [done|].
    wsimpl. destruct (w_dir w !! path r); [|done].
    intros [= <- <-]. repeat split; try done.
    eexists _, _, [_; _]. wsimpl. rewrite <- app_assoc.
    split; [done|]. split; [done|]. split; [|by right]. set_solver.
  - rewrite os_MkdirAllDir_eq.
    match goal with |- context [injected ?x] => destruct (injected x) end; [done|].
    rewrite os_Create_eq.
    match goal with |- context [injected ?x] => destruct (injected x) end; [done|].
    wsimpl. destruct (w_dir w !! path r); intros [= <- <-]; repeat split; try done;
      eexists _, _, [_; _; _]; wsimpl; rewrite <- !app_assoc;
      (split; [done|]); (split; [done|]); (split; [|by left]); set_solver.
Qed.

(** The handle a successful rotation installs is the one its final
    creation returned. *)
Lemma rotate_ok_log r w r' w' :
  rotate r w = (None, r', w') →
  ∃ evs h, w_trace w' = w_trace w ++ evs ++ [Ev (CCreate (path r)) (Opened h)] ∧
           file r' = Some h.
Proof.
  intros H. destruct (rotate_ok_close r w r' w' H) as (w1 & H1 & Htr & _).
  destruct (Z.ltb_spec (maxBackups r) 1) as [HN|HN].
  - rewrite rotate_unheld_zero in H1 by done.
    destruct (injected w1); [discriminate|]. cbv zeta in H1.
    match type of H1 with context [injected ?x] => destruct (injected x) end;
      [discriminate|].
    injection H1 as <- <-. wsimpl. rewrite Htr.
    eexists (closing r ++ [_]), _. rewrite <- !app_assoc. done.
  - apply rotate_unheld_ok in H1 as (evs & h & Ht & _ & _ & -> & _); [|done|done].
    exists (closing r ++ evs), h. rewrite Ht, Htr, <- !app_assoc. done.
Qed.

Lemma rotateIfNeeded_ok_handle b r w r' w' :
  rotateIfNeeded b r w = (None, r', w') →
  path r' = path r ∧ maxSize r' = maxSize r ∧ maxBackups r' = maxBackups r ∧
  ((r' = r ∧ w' = w) ∨
   ∃ evs h, w_trace w' = w_trace w ++ evs ++ [Ev (CCreate (path r)) (Opened h)] ∧
            file r' = Some h).
Proof.
  unfold rotateIfNeeded. destruct (add64 _ _ >? maxSize r).
  - intros H. pose proof (rotate_ok r w r' w' H) as (-> & _).
    repeat split; try done. right. by apply rotate_ok_log.
  - intros [= <- <-]. repeat split; try done. by left.
Qed.

Lemma writeFile_file b r w : file (snd (fst (writeFile b r w))) = file r.
Proof.
  unfold writeFile, bind. destruct (file r) as [f|] eqn:Ef.
  - by destruct (file_Write f b w) as [[k err] w3].
  - done.
Qed.

(** A [Write] that starts without a handle and succeeds ends up with a
    handle that it opened or created itself. *)
Lemma Write_unheld_handle b r w n r' w' :
  file r = None →
  Write b r w = ((n, None), r', w') →
  ∃ h c evs, file r' = Some h ∧ w_trace w' = w_trace w ++ evs ∧
             Ev c (Opened h) ∈ evs ∧
             (c = CCreate (path r) ∨ c = COpenAppend (path r)).
Proof.
  intros Hf H. rewrite Write_eq in H.
  destruct (openIfNeeded r w) as [[e|r1] w1] eqn:Eo; [discriminate|].
  apply openIfNeeded_ok in Eo as (Hp & _ & _ & Ho). rewrite Hf in Ho.
  destruct Ho as (h0 & c0 & evs0 & Hf1 & Ht1 & Hin0 & Hc0).
  unfold writeOpened, bind in H.
  destruct (rotateIfNeeded b r1 w1) as [[[e|] r2] w2] eqn:Er; [discriminate|].
  apply rotateIfNeeded_ok_handle in Er as (Hp2 & _ & _ & Hr).
  destruct (writeFile_runs b r2 w2) as [evs2 [Ht2 _]].
  assert (file r' = file r2) as Hf2.
  { pose proof (writeFile_file b r2 w2) as Hk. by rewrite H in Hk. }
  rewrite H in Ht2. cbn [snd] in Ht2.
  destruct Hr as [[-> ->]|(evs1 & h & Ht & Hh)].
  - exists h0, c0, (evs0 ++ evs2). rewrite Hf2, Ht2, Ht1, <- app_assoc.
    split; [done|]. split; [done|]. split; [|done].
    apply elem_of_app. by left.
  - exists h, (CCreate (path r)), (evs0 ++ evs1 ++ [Ev (CCreate (path r)) (Opened h)] ++ evs2).
    rewrite Hf2, Ht2, Ht, Ht1, Hp, <- !app_assoc.
    split; [done|]. split; [done|]. split; [|by left].
    rewrite !elem_of_app, list_elem_of_singleton. auto.
Qed.

(** C10. When the close of the file fails inside [Close], the error comes
    back wrapped and the rotator holds no handle all the same: a second
    [Close] returns no error and issues no call, and the next [Write]
    starts from the path, not from the handle that failed: it looks the
    path up first, and the handle it ends up with, when it succeeds, is
    one that this [Write] opened or created. *)
Theorem Close_failure_clears r f w e :
  file r = Some f →
  fst (file_Close f w) = Some e →
  let '(e1, r1, w1) := Close r w in
  e1 = Some (Wrap e) ∧ file r1 = None ∧
  Close r1 w1 = (None, r1, w1) ∧
  ∀ b,
    (∃ o rest,
        w_trace (snd (Write b r1 w1)) = w_trace w1 ++ Ev (CStat (path r)) o :: rest) ∧
    (∀ n r2 w2, Write b r1 w1 = ((n, None), r2, w2) →
       ∃ h c evs, file r2 = Some h ∧ w_trace w2 = w_trace w1 ++ evs ∧
                  Ev c (Opened h) ∈ evs ∧
                  (c = CCreate (path r) ∨ c = COpenAppend (path r))).
Proof.
  intros Hf He. rewrite (Close_held r f w Hf), He.
  split; [done|]. split; [done|]. split; [by apply Close_unheld|].
  intros b. split.
  - exact (Write_unheld_stats b (set_file None r) _ eq_refl).
  - intros n r2 w2 H.
    exact (Write_unheld_handle b (set_file None r) _ n r2 w2 eq_refl H).
Qed.

(** ** Write *)

Lemma openIfNeeded_held r1 r w w1 :
  openIfNeeded r w = (inr r1, w1) → ∃ f, file r1 = Some f.
Proof.
  intros H. apply openIfNeeded_ok in H as (_ & _ & _ & H).
  destruct (file r) as [f|] eqn:Ef.
  - destruct H as [-> _]. eauto.
  - destruct H as (h & _ & _ & Hh & _). eauto.
Qed.

Lemma rotateIfNeeded_held b r w r' w' f :
  file r = Some f → rotateIfNeeded b r w = (None, r', w') → ∃ f', file r' = Some f'.
Proof.
  intros Hf H. apply rotateIfNeeded_ok_handle in H as (_ & _ & _ & [[-> _]|H]).
  - eauto.
  - destruct H as (_ & h & _ & Hh). eauto.
Qed.

(** What the write of a file transfers. *)
Lemma file_Write_transfers f b w :
  let '((n, e), w') := file_Write f b w in
  (n ≤ length b)%nat ∧ (e = None → n = length b) ∧
  w_trace w' = w_trace w ++ [Ev (CWrite f b) (Wrote n e)] ∧
  w_dir w' = w_dir w ∧
  (∀ ino, w_fds w !! f = Some ino →
          inode_data w' ino = inode_data w ino ++ take n b).
Proof.
  rewrite file_Write_eq. destruct (w_fds w !! f) as [ino|] eqn:Efd.
  - destruct (default None (head (w_oracle w))) as [ft|]; cbv zeta;
      (split; [lia|]); (split; [done|]); (split; [done|]); (split; [done|]);
      intros ? [= <-]; unfold inode_data at 1; wsimpl; rewrite lookup_insert_eq; simpl.
    + done.
    + by rewrite firstn_all.
  - split; [lia|]. by repeat split.
Qed.

(** C3. A [Write] with no file open first looks the path up.  If the
    lookup fails with anything but "does not exist", the call returns 0
    and the wrapped error and the rotator is as it was.  If the path does
    not exist, the parent directories are made and the file is created,
    with size 0.  If it exists, it is opened for appending and the size is
    the length the system reports for it.  The rest of the call runs on
    the rotator so opened. *)
Theorem Write_opens_lazily b r w :
  file r = None →
  (∀ ft, fault_at w 0 = Some ft →
     Write b r w =
       ((0, Some (Wrap (ErrIO (f_code ft)))), r,
        logged (CStat (path r)) (Failed (ErrIO (f_code ft))) w)) ∧
  (w_dir w !! path r = None →
   fault_at w 0 = None → fault_at w 1 = None → fault_at w 2 = None →
   ∃ h w1,
     let r1 := set_size 0 (set_file (Some h) r) in
     openIfNeeded r w = (inr r1, w1) ∧
     Write b r w = writeOpened b r1 w1 ∧
     w_trace w1 = w_trace w ++ [Ev (CStat (path r)) (Failed ErrNotExist);
                                Ev (CMkdirAllDir (path r)) Done;
                                Ev (CCreate (path r)) (Opened h)] ∧
     w_dir w1 = <[path r := w_next w]> (w_dir w) ∧
     w_fds w1 !! h = Some (w_next w) ∧
     content w1 (path r) = Some []) ∧
  (∀ ino, w_dir w !! path r = Some ino →
   fault_at w 0 = None → fault_at w 1 = None →
   ∃ h w1,
     let fiSize := Z.of_nat (length (inode_data w ino)) in
     let r1 := set_size fiSize (set_file (Some h) r) in
     openIfNeeded r w = (inr r1, w1) ∧
     Write b r w = writeOpened b r1 w1 ∧
     w_trace w1 = w_trace w ++ [Ev (CStat (path r)) (Size fiSize);
                                Ev (COpenAppend (path r)) (Opened h)] ∧
     w_dir w1 = w_dir w ∧ w_inodes w1 = w_inodes w ∧
     w_fds w1 !! h = Some ino).
Proof.
  intros Hf. split; [|split].
  - intros ft H0. rewrite Write_eq. unfold openIfNeeded, bind. rewrite Hf.
    rewrite os_Stat_eq, injected_fault_at, H0. done.
  - intros Hp H0 H1 H2. rewrite Write_eq. unfold openIfNeeded, bind. rewrite Hf.
    rewrite os_Stat_eq, injected_fault_at, H0. unfold content. rewrite Hp.
    cbn [fmap option_fmap option_map IsNotExist].
    rewrite os_MkdirAllDir_eq, injected_fault_at, fault_at_logged, H1.
    cbn [fmap option_fmap option_map].
    rewrite os_Create_eq, injected_fault_at, !fault_at_logged, H2.
    wsimpl. rewrite Hp. cbn [fmap option_fmap option_map]. unfold ret.
    eexists _, _. split; [reflexivity|]. split; [reflexivity|].
    wsimpl. rewrite <- !app_assoc. split; [done|]. split; [done|].
    split; [apply lookup_insert_eq|].
    rewrite lookup_insert_eq. simpl.
    unfold inode_data. wsimpl. by rewrite lookup_insert_eq.
  - intros ino Hp H0 H1. rewrite Write_eq. unfold openIfNeeded, bind. rewrite Hf.
    rewrite os_Stat_eq, injected_fault_at, H0. unfold content. rewrite Hp.
    cbn [fmap option_fmap option_map].
    rewrite os_OpenAppend_eq, injected_fault_at, fault_at_logged, H1.
    wsimpl. rewrite Hp. cbn [fmap option_fmap option_map]. unfold ret.
    eexists _, _. split; [reflexivity|]. split; [reflexivity|].
    wsimpl. rewrite <- !app_assoc. rewrite lookup_insert_eq. done.
Qed.

(** C2. Once the file is open, [Write] rotates before writing exactly
    when the int64 sum of the current size and the payload length exceeds
    [maxSize]: then the payload is written after, and to the state left
    by, the rotation; otherwise the only call left is the write itself.
    If the rotation fails, [Write] returns 0 and that error, the call has
    logged no write to any file, and no file content has changed since
    the file was opened. *)
Theorem Write_rotates_first b r w r1 w1 :
  openIfNeeded r w = (inr r1, w1) →
  (add64 (size r1) (Z.of_nat (length b)) > maxSize r1 →
     (∀ e r2 w2, rotate r1 w1 = (Some e, r2, w2) →
        Write b r w = ((0, Some e), r2, w2) ∧
        w_inodes w2 = w_inodes w1 ∧
        ∃ evs, w_trace w2 = w_trace w ++ evs ∧ silent evs) ∧
     (∀ r2 w2, rotate r1 w1 = (None, r2, w2) → Write b r w = writeFile b r2 w2)) ∧
  (add64 (size r1) (Z.of_nat (length b)) ≤ maxSize r1 →
     Write b r w = writeFile b r1 w1 ∧
     ∃ f o, file r1 = Some f ∧
            w_trace (snd (Write b r w)) = w_trace w1 ++ [Ev (CWrite f b) o]).
Proof.
  intros Ho. rewrite Write_eq, Ho. unfold writeOpened, rotateIfNeeded, bind.
  split.
  - intros Hgt. destruct (Z.gtb_spec (add64 (size r1) (Z.of_nat (length b))) (maxSize r1));
      [|lia].
    split.
    + intros e r2 w2 Hr. rewrite Hr. split; [done|].
      split; [by apply rotate_failure in Hr as [_ ->]|].
      destruct (openIfNeeded_quietly r w) as (e1 & [Ht1 _] & S1).
      destruct (rotate_quietly r1 w1) as (e2 & [Ht2 _] & S2).
      rewrite Ho in Ht1. rewrite Hr in Ht2. cbn [snd] in *.
      exists (e1 ++ e2). rewrite Ht2, Ht1, <- app_assoc. split; [done|].
      by apply Forall_app.
    + intros r2 w2 Hr. by rewrite Hr.
  - intros Hle. destruct (Z.gtb_spec (add64 (size r1) (Z.of_nat (length b))) (maxSize r1));
      [lia|].
    unfold ret. split; [done|].
    destruct (openIfNeeded_held r1 r w w1 Ho) as [f Hf]. exists f.
    unfold writeFile, bind. rewrite Hf.
    pose proof (file_Write_transfers f b w1) as Hw.
    destruct (file_Write f b w1) as [[n e] w3]. destruct Hw as (_ & _ & Ht & _).
    by exists (Wrote n e).
Qed.

(** C4. When a [Write] reaches the write of the file, the count that the
    file write returns is what the call returns and what is added (as an
    int64) to the size, whether or not the file write also returned an
    error; the error, if any, comes back wrapped.  That count is the
    number of payload bytes that reached the file. *)
Theorem Write_counts_bytes b r w r1 w1 r2 w2 :
  openIfNeeded r w = (inr r1, w1) →
  rotateIfNeeded b r1 w1 = (None, r2, w2) →
  ∃ f, file r2 = Some f ∧
    let '((n, e), w3) := file_Write f b w2 in
    Write b r w = ((Z.of_nat n, Wrap <$> e),
                   set_size (add64 (size r2) (Z.of_nat n)) r2, w3) ∧
    (n ≤ length b)%nat ∧ (e = None → n = length b) ∧
    w_trace w3 = w_trace w2 ++ [Ev (CWrite f b) (Wrote n e)] ∧
    (∀ ino, w_fds w2 !! f = Some ino →
            inode_data w3 ino = inode_data w2 ino ++ take n b).
Proof.
  intros Ho Hr. rewrite Write_eq, Ho. unfold writeOpened, bind. rewrite Hr.
  destruct (openIfNeeded_held r1 r w w1 Ho) as [f1 Hf1].
  destruct (rotateIfNeeded_held b r1 w1 r2 w2 f1 Hf1 Hr) as [f Hf].
  exists f. split; [done|]. unfold writeFile, bind. rewrite Hf.
  pose proof (file_Write_transfers f b w2) as Hw.
  destruct (file_Write f b w2) as [[n e] w3].
  destruct Hw as (Hn & He & Ht & _ & Hi). unfold ret. done.
Qed.

(** ** The size stays under the threshold *)

Lemma writeFile_ok_size b r w n r' w' :
  writeFile b r w = ((n, None), r', w') →
  r' = set_size (add64 (size r) (Z.of_nat (length b))) r.
Proof.
  unfold writeFile, bind. destruct (file r) as [f|]; [|done].
  pose proof (file_Write_transfers f b w) as Hw.
  destruct (file_Write f b w) as [[k e] w3]. destruct Hw as (_ & He & _).
  unfold ret. destruct e; [done|]. intros [= _ <- _]. by rewrite He.
Qed.

Lemma Write_ok_size b r w n r' w' :
  Write b r w = ((n, None), r', w') →
  Z.of_nat (length b) ≤ maxSize r →
  size r' ≤ maxSize r ∧ maxSize r' = maxSize r.
Proof.
  intros H Hlen. rewrite Write_eq in H.
  destruct (openIfNeeded r w) as [[e|r1] w1] eqn:Eo; [discriminate|].
  apply openIfNeeded_ok in Eo as (_ & Hm & _). rewrite <- Hm in *.
  unfold writeOpened, bind, rotateIfNeeded in H.
  destruct (Z.gtb_spec (add64 (size r1) (Z.of_nat (length b))) (maxSize r1)) as [Hgt|Hle].
  - destruct (rotate r1 w1) as [[[e|] r2] w2] eqn:Er; [discriminate|].
    apply rotate_ok in Er as (-> & _).
    apply writeFile_ok_size in H as ->. wsimpl. split; [|done].
    unfold add64. rewrite Z.add_0_l.
    pose proof (wrap64_le_nonneg (Z.of_nat (length b))). lia.
  - unfold ret in H. apply writeFile_ok_size in H as ->. wsimpl. done.
Qed.

(** C9. For a rotator with [maxSize > 0] that starts at size 0, after
    any run of [Write] calls that all succeed and whose payloads are each
    at most [maxSize] long, the size is at most [maxSize], whatever the
    disk held at the start and the int64 arithmetic included. *)
Theorem size_stays_bounded bs r w r' w' :
  0 < maxSize r →
  size r = 0 →
  Forall (λ b, Z.of_nat (length b) ≤ maxSize r) bs →
  write_all bs r w = Some (r', w') →
  size r' ≤ maxSize r'.
Proof.
  intros Hpos H0 Hbs H.
  assert (size r ≤ maxSize r) as Hinv by lia. clear Hpos H0.
  revert r w Hinv Hbs H. induction bs as [|b bs IH]; intros r w Hinv Hbs H.
  - by injection H as <- <-.
  - cbn [write_all] in H. apply Forall_cons in Hbs as [Hb Hbs].
    destruct (Write b r w) as [[[n e] r1] w1] eqn:EW. cbn [snd] in H.
    destruct e; [discriminate|].
    apply Write_ok_size in EW as [Hs Hm]; [|done].
    apply IH in H; [done|lia|by rewrite Hm].
Qed.

(** ** The backup chain *)

Lemma settled_at_later p n d nx nx' :
  (nx ≤ nx')%nat → settled_at p n d nx → settled_at p n d nx'.
Proof.
  intros Hle (Hc & H1 & Hy & Hb & Hp).
  split; [done|]. split; [done|]. split; [done|]. split.
  - intros i a Hi Ha. specialize (Hb i a Hi Ha). lia.
  - intros c Hc'. specialize (Hp c Hc'). lia.
Qed.

(** Creating the live file anew keeps the chain settled. *)
Lemma settled_at_insert p n d nx nx' :
  (nx < nx')%nat → settled_at p n d nx → settled_at p n (<[p := nx]> d) nx'.
Proof.
  intros Hlt ((Hbound & Hgap & Hord) & H1 & Hy & Hb & Hp).
  assert (∀ i, <[p := nx]> d !! backupPath p i = d !! backupPath p i) as Hsame.
  { intros i. apply lookup_insert_ne. intros E. symmetry in E.
    by apply backupPath_ne_path in E. }
  unfold settled_at, chain_at. setoid_rewrite Hsame. rewrite lookup_insert_eq.
  split; [done|]. split; [done|]. split; [|split].
  - intros i a c Hi Ha [= <-]. by apply (Hb i).
  - intros i a Hi Ha. specialize (Hb i a Hi Ha). lia.
  - intros c [= <-]. done.
Qed.

Lemma rotated_path r nx d : rotated r nx d !! path r = Some nx.
Proof. unfold rotated. destruct (maxBackups r <? 1); apply lookup_insert_eq. Qed.

Lemma rotated_backup r nx d i :
  1 ≤ i ≤ maxBackups r →
  rotated r nx d !! backupPath (path r) i =
    d !! (if i =? 1 then path r else backupPath (path r) (i - 1)).
Proof.
  intros Hi. unfold rotated. destruct (Z.ltb_spec (maxBackups r) 1); [lia|].
  rewrite lookup_insert_ne by (intros E; symmetry in E; by apply backupPath_ne_path in E).
  replace i with (Z.of_nat (Z.to_nat i)) at 1 by lia.
  rewrite shifted_lookup; [| |lia].
  - unfold oldPath. case_decide.
    + destruct (Z.eqb_spec i 1); [lia|].
      rewrite lookup_delete_ne; [by rewrite Z2Nat.id by lia|].
      intros E. apply backupPath_inj in E. lia.
    + destruct (Z.eqb_spec i 1); [|lia].
      rewrite lookup_delete_ne; [done|]. apply backupPath_ne_path.
  - rewrite Z2Nat.id by lia. apply lookup_delete_eq.
Qed.

Lemma rotated_beyond r nx d i :
  maxBackups r < i →
  rotated r nx d !! backupPath (path r) i = d !! backupPath (path r) i.
Proof.
  intros Hi. unfold rotated.
  destruct (Z.ltb_spec (maxBackups r) 1).
  - rewrite lookup_insert_ne; [done|].
    intros E. symmetry in E. by apply backupPath_ne_path in E.
  - rewrite lookup_insert_ne
      by (intros E; symmetry in E; by apply backupPath_ne_path in E).
    rewrite shifted_other.
    + apply lookup_delete_ne. intros E. apply backupPath_inj in E. lia.
    + apply backupPath_ne_path.
    + intros k Hk E. apply backupPath_inj in E. lia.
Qed.

(** A rotation keeps the chain settled: every backup moves one slot up,
    the live file becomes the first backup, the new live file is the
    youngest of all. *)
Lemma settled_at_rotated r d nx nx' :
  (nx < nx')%nat →
  settled_at (path r) (maxBackups r) d nx →
  settled_at (path r) (maxBackups r) (rotated r nx d) nx'.
Proof.
  intros Hlt Hs.
  destruct (Z.ltb_spec (maxBackups r) 1) as [HN|HN].
  { unfold rotated. destruct (Z.ltb_spec (maxBackups r) 1); [|lia].
    by apply settled_at_insert. }
  destruct Hs as ((Hbound & Hgap & Hord) & H1 & Hy & Hb & Hp).
  set (p := path r) in *. set (d' := rotated r nx d).
  assert (∀ i, 1 ≤ i → is_Some (d' !! backupPath p i) → i ≤ maxBackups r) as Hbound'.
  { intros i Hi Hsome. destruct (Z.le_gt_cases i (maxBackups r)); [done|].
    unfold d', p in Hsome. rewrite rotated_beyond in Hsome by lia. by apply Hbound. }
  assert (∀ i x, 1 ≤ i → d' !! backupPath p i = Some x →
            (i = 1 ∧ d !! p = Some x) ∨
            (1 < i ∧ d !! backupPath p (i - 1) = Some x)) as Hsrc.
  { intros i x Hi Hx. assert (i ≤ maxBackups r) by (apply Hbound'; eauto).
    unfold d', p in Hx. rewrite rotated_backup in Hx by lia.
    destruct (Z.eqb_spec i 1); [by left|right]. split; [lia|done]. }
  assert (∀ i x, 1 ≤ i → d' !! backupPath p i = Some x → (x < nx)%nat) as Hold.
  { intros i x Hi Hx. apply Hsrc in Hx as [[_ Hx]|[Hi1 Hx]]; [| |done].
    - by apply Hp.
    - apply (Hb (i - 1)); [lia|done]. }
  split; [split; [done|split]|split; [|split; [|split]]].
  - intros i Hi [x Hx]. pose proof (Hbound' i ltac:(lia) (mk_is_Some _ _ Hx)) as HiN.
    apply Hsrc in Hx as [[-> _]|[_ Hx]]; [lia| |lia].
    unfold d', p. rewrite rotated_backup by lia.
    destruct (Z.eqb_spec (i - 1) 1) as [E|E].
    + apply H1. rewrite <- E. eauto.
    + apply Hgap; [lia|eauto].
  - intros i j a b Hij Ha Hb'.
    apply Hsrc in Hb' as [[-> _]|[Hj1 Hb']]; [lia| |lia].
    apply Hsrc in Ha as [[-> Ha]|[Hi1 Ha]]; [| |lia].
    + apply (Hy (j - 1) b a); [lia|done|done].
    + apply (Hord (i - 1) (j - 1) a b); [lia|done|done].
  - intros _. unfold d', p. rewrite rotated_path. eauto.
  - intros i a c Hi Ha Hc. unfold d', p in Hc. rewrite rotated_path in Hc.
    injection Hc as <-. by apply (Hold i).
  - intros i a Hi Ha. specialize (Hold i a Hi Ha). lia.
  - intros c Hc. unfold d', p in Hc. rewrite rotated_path in Hc.
    injection Hc as <-. done.
Qed.

Lemma rotate_quiet_effect r w :
  w_oracle w = [] →
  let '(e, r', w') := rotate r w in
  path r' = path r ∧ maxBackups r' = maxBackups r ∧ w_oracle w' = [] ∧
  ((w_dir w' = rotated r (w_next w) (w_dir w) ∧ w_next w' = S (S (w_next w))) ∨
   (w_dir w' = w_dir w ∧ w_next w' = w_next w)).
Proof.
  intros Hq. destruct (rotate_runs r w) as [evs R].
  destruct (rotate r w) as [[[e|] r'] w'] eqn:E; cbn [snd] in R.
  - pose proof (rotate_failure r w e r' w' E) as [-> _].
    split; [done|]. split; [done|]. split; [by eapply runs_quiet|]. right.
    destruct (file r) as [f|] eqn:Ef.
    + rewrite (rotate_held r f w Ef), (injected_quiet w Hq) in E.
      destruct (w_fds w !! f).
      * destruct (rotate_quiet (set_file None r)
                    (logged (CClose f) Done (set_fds (delete f (w_fds w)) w)))
          as (r2 & w2 & Hr); [by apply quiet_logged|done|].
        rewrite Hr in E. discriminate.
      * by injection E as _ <-.
    + destruct (rotate_quiet r w Hq) as (r2 & w2 & Hr).
      { intros f Hf. by rewrite Ef in Hf. }
      rewrite Hr in E. discriminate.
  - apply rotate_ok in E as (-> & _ & Hd & _ & Hn).
    split; [done|]. split; [done|]. split; [by eapply runs_quiet|]. by left.
Qed.

Lemma openIfNeeded_dir r w :
  (w_dir (snd (openIfNeeded r w)) = w_dir w ∧
   (w_next w ≤ w_next (snd (openIfNeeded r w)))%nat) ∨
  (w_dir (snd (openIfNeeded r w)) = <[path r := w_next w]> (w_dir w) ∧
   (w_next w < w_next (snd (openIfNeeded r w)))%nat).
Proof.
  unfold openIfNeeded. destruct (file r); [by left|].
  unfold bind. rewrite os_Stat_eq. unfold content.
  destruct (injected w) as [e|] eqn:Einj.
  { rewrite (injected_not_missing w e Einj). by left. }
  destruct (w_dir w !! path r) as [ino|] eqn:Ep; cbn [fmap option_fmap option_map IsNotExist].
  - rewrite os_OpenAppend_eq.
    match goal with |- context [injected ?x] => destruct (injected x) end; [by left|].
    wsimpl. rewrite Ep. left. simpl. split; [done|lia].
  - rewrite os_MkdirAllDir_eq.
    match goal with |- context [injected ?x] => destruct (injected x) end; [by left|].
    rewrite os_Create_eq.
    match goal with |- context [injected ?x] => destruct (injected x) end; [by left|].
    wsimpl. rewrite Ep. right. simpl. split; [done|lia].
Qed.

Lemma writeFile_dir b r w :
  let '(_, r', w') := writeFile b r w in
  path r' = path r ∧ maxBackups r' = maxBackups r ∧
  w_dir w' = w_dir w ∧ w_next w' = w_next w.
Proof.
  unfold writeFile, bind. destruct (file r) as [f|]; [|done].
  rewrite file_Write_eq. destruct (w_fds w !! f); [|done].
  by destruct (default None (head (w_oracle w))).
Qed.

Lemma Write_quiet_settled b r w :
  w_oracle w = [] → settled r w →
  let '(_, r', w') := Write b r w in w_oracle w' = [] ∧ settled r' w'.
Proof.
  intros Hq Hs.
  destruct (Write_runs b r w) as [evs R].
  rewrite Write_eq in *.
  pose proof (openIfNeeded_dir r w) as Hod.
  destruct (openIfNeeded_runs r w) as [e1 R1].
  destruct (openIfNeeded r w) as [[e|r1] w1] eqn:Eo; cbn [snd] in *.
  { split; [by eapply runs_quiet|]. unfold settled in *.
    destruct Hod as [[-> Hn]|[-> Hn]].
    - by eapply settled_at_later.
    - by apply settled_at_insert. }
  apply openIfNeeded_ok in Eo as (Hp & _ & Hb & _).
  assert (settled r1 w1) as Hs1.
  { unfold settled in *. rewrite Hp, Hb. destruct Hod as [[-> Hn]|[-> Hn]].
    - by eapply settled_at_later.
    - by apply settled_at_insert. }
  pose proof (runs_quiet _ _ _ R1 Hq) as Hq1.
  unfold writeOpened, bind in *.
  assert (let '(_, r2, w2) := rotateIfNeeded b r1 w1 in settled r2 w2) as Hs2.
  { unfold rotateIfNeeded. destruct (add64 _ _ >? maxSize r1); [|done].
    pose proof (rotate_quiet_effect r1 w1 Hq1) as He.
    destruct (rotate r1 w1) as [[e r2] w2].
    destruct He as (Hp2 & Hb2 & _ & [[Hd Hn]|[Hd Hn]]);
      unfold settled in *; rewrite Hp2, Hb2, Hd, Hn.
    - apply settled_at_rotated; [lia|done].
    - done. }
  destruct (rotateIfNeeded b r1 w1) as [[[e|] r2] w2].
  - split; [by eapply runs_quiet|done].
  - pose proof (writeFile_dir b r2 w2) as Hw.
    destruct (writeFile b r2 w2) as [[res r'] w']. cbn [snd] in R.
    destruct Hw as (Hp' & Hb' & Hd' & Hn').
    split; [by eapply runs_quiet|]. unfold settled in *.
    by rewrite Hp', Hb', Hd', Hn'.
Qed.

Lemma Close_quiet_settled r w :
  w_oracle w = [] → settled r w →
  let '(_, r', w') := Close r w in w_oracle w' = [] ∧ settled r' w'.
Proof.
  intros Hq Hs. destruct (file r) as [f|] eqn:Ef.
  - rewrite (Close_held r f w Ef).
    destruct (file_Close_effect f w) as (Hd & _ & _ & Ho & _).
    split; [by rewrite Ho, Hq|]. unfold settled in *. cbn [path maxBackups set_file].
    rewrite Hd. eapply settled_at_later; [|done].
    rewrite file_Close_eq. by destruct (w_fds w !! f).
  - by rewrite (Close_unheld r w Ef).
Qed.

Lemma step_quiet_settled o r w :
  w_oracle w = [] → settled r w →
  w_oracle (snd (step o (r, w))) = [] ∧
  settled (fst (step o (r, w))) (snd (step o (r, w))).
Proof.
  intros Hq Hs. destruct o as [b| |]; cbn [step].
  - pose proof (Write_quiet_settled b r w Hq Hs) as H.
    by destruct (Write b r w) as [[res r'] w'].
  - pose proof (Close_quiet_settled r w Hq Hs) as H.
    by destruct (Close r w) as [[res r'] w'].
  - pose proof (rotate_quiet_effect r w Hq) as H.
    destruct (rotate r w) as [[e r'] w']. cbn [fst snd].
    destruct H as (Hp & Hb & Hq' & [[Hd Hn]|[Hd Hn]]); (split; [done|]);
      unfold settled in *; rewrite Hp, Hb, Hd, Hn.
    + apply settled_at_rotated; [lia|done].
    + done.
Qed.

Lemma run_quiet_settled ops r w :
  w_oracle w = [] → settled r w →
  w_oracle (snd (run ops (r, w))) = [] ∧
  settled (fst (run ops (r, w))) (snd (run ops (r, w))).
Proof.
  revert r w. induction ops as [|o ops IH]; intros r w Hq Hs; [done|].
  cbn [run foldl]. destruct (step_quiet_settled o r w Hq Hs) as [Hq1 Hs1].
  destruct (step o (r, w)) as [r1 w1]. by apply IH.
Qed.

(** Nothing on disk yet: the chain is settled. *)
Lemma settled_empty r w : w_dir w = ∅ → settled r w.
Proof.
  intros Hd. unfold settled, settled_at, chain_at. rewrite Hd.
  setoid_rewrite lookup_empty.
  split; [split; [|split]|split; [|split; [|split]]]; try done;
    by intros ? ? [? [=]].
Qed.

(** C5 as amended.  Start from a disk on which the backup chain is at
    rest (for instance an empty one) and run any sequence of [Write],
    [rotate] and [Close] calls during which no system call fails for a
    reason other than "does not exist".  Then after every call the
    backups are numbered from 1 to [maxBackups] at most, without gaps,
    and each is younger than the next. *)
Theorem backups_stay_chained ops r w :
  w_oracle w = [] →
  settled r w →
  chain_ok (fst (run ops (r, w))) (snd (run ops (r, w))).
Proof.
  intros Hq Hs. destruct (run_quiet_settled ops r w Hq Hs) as [_ H].
  apply H.
Qed.

(** ** Concrete runs: witnesses and counterexamples *)

Example chained_disk :
  map_to_list (w_dir (snd chained)) = [("log-1", 2%nat); ("log-2", 0%nat); ("log", 4%nat)].
Proof. by vm_compute. Qed.

Lemma rotate_shifts_backups_witness :
  let r := fst chained in
  let w := snd chained in
  let r' := snd (fst (rotate r w)) in
  let w' := snd (rotate r w) in
  1 ≤ maxBackups r ∧
  rotate r w = (None, r', w') ∧
  ∃ evs h,
    w_trace w' = w_trace w ++ closing r ++ evs ++ [Ev (CCreate (path r)) (Opened h)] ∧
    ev_call <$> evs =
      CRemove (backupPath (path r) (maxBackups r))
        :: renames (path r) (Z.to_nat (maxBackups r)) ∧
    Forall tolerated evs ∧
    file r' = Some h ∧ size r' = 0 ∧
    w_fds w' !! h = Some (w_next w) ∧
    w_dir w' !! path r = Some (w_next w) ∧
    w_inodes w' = <[w_next w := []]> (w_inodes w) ∧
    (∀ i, 1 ≤ i ≤ maxBackups r →
          w_dir w' !! backupPath (path r) i =
          w_dir w !! (if i =? 1 then path r else backupPath (path r) (i - 1))).
Proof.
  cbv zeta.
  assert (1 ≤ maxBackups (fst chained)) as H1 by (by vm_compute).
  assert (rotate (fst chained) (snd chained) =
          (None, snd (fst (rotate (fst chained) (snd chained))),
           snd (rotate (fst chained) (snd chained)))) as H2 by (by vm_compute).
  split; [exact H1|]. split; [exact H2|].
  exact (rotate_shifts_backups _ _ _ _ H1 H2).
Defined.

(** The calls of that rotation, as the model logs them. *)
Example rotate_chained_calls :
  ev_call <$> drop (length (w_trace (snd chained)))
                   (w_trace (snd (rotate (fst chained) (snd chained)))) =
    [CClose 5%nat; CRemove "log-2"; CRename "log-1" "log-2"; CRename "log" "log-1";
     CCreate "log"].
Proof. by vm_compute. Qed.

(** Early in the life of a log the older slots are empty: the removal and
    the first rename report "does not exist" and the rotation goes on. *)
Example rotate_young_chain :
  let s := run [OpWrite abc] (demo 2, empty_world []) in
  fst (fst (rotate (fst s) (snd s))) = None ∧
  drop (length (w_trace (snd s))) (w_trace (snd (rotate (fst s) (snd s)))) =
    [Ev (CClose 1%nat) Done;
     Ev (CRemove "log-2") (Failed ErrNotExist);
     Ev (CRename "log-1" "log-2") (Failed ErrNotExist);
     Ev (CRename "log" "log-1") Done;
     Ev (CCreate "log") (Opened 3%nat)].
Proof. by vm_compute. Qed.

(** [New] applies its options in order and stops at the first failure. *)
Example New_with_options :
  New "default.log" 1000 3
      [λ r, (mkRotator "log" (maxSize r) (maxBackups r) (file r) (size r), None);
       λ r, (mkRotator (path r) 4 (maxBackups r) (file r) (size r), None)]
    = inr (mkRotator "log" 4 3 None 0).
Proof. reflexivity. Qed.

Example New_option_fails :
  New "default.log" 1000 3
      [λ r, (r, Some ErrInvalid);
       λ r, (mkRotator (path r) 4 (maxBackups r) (file r) (size r), None)]
    = inl ErrInvalid.
Proof. reflexivity. Qed.

Example Write_rotation_fails :
  fst (Write abc (fst before_failure) (snd before_failure)) =
    ((0, Some (Wrapped (ErrIO 7))), set_file None (fst before_failure)) ∧
  w_inodes (snd (Write abc (fst before_failure) (snd before_failure))) =
    w_inodes (snd before_failure).
Proof. by vm_compute. Qed.

Lemma Write_rotates_first_witness :
  let r := fst before_failure in
  let w := snd before_failure in
  let b := abc in
  openIfNeeded r w = (inr r, w) ∧
  ((add64 (size r) (Z.of_nat (length b)) > maxSize r →
     (∀ e r2 w2, rotate r w = (Some e, r2, w2) →
        Write b r w = ((0, Some e), r2, w2) ∧
        w_inodes w2 = w_inodes w ∧
        ∃ evs, w_trace w2 = w_trace w ++ evs ∧ silent evs) ∧
     (∀ r2 w2, rotate r w = (None, r2, w2) → Write b r w = writeFile b r2 w2)) ∧
   (add64 (size r) (Z.of_nat (length b)) ≤ maxSize r →
     Write b r w = writeFile b r w ∧
     ∃ f o, file r = Some f ∧
            w_trace (snd (Write b r w)) = w_trace w ++ [Ev (CWrite f b) o])).
Proof.
  cbv zeta.
  assert (openIfNeeded (fst before_failure) (snd before_failure) =
          (inr (fst before_failure), snd before_failure)) as H1 by (by vm_compute).
  split; [exact H1|].
  exact (Write_rotates_first abc _ _ _ _ H1).
Defined.

Lemma Write_opens_lazily_witness :
  let r := demo 2 in
  let w := empty_world [] in
  let b := abc in
  file r = None ∧
  ((∀ ft, fault_at w 0 = Some ft →
     Write b r w =
       ((0, Some (Wrap (ErrIO (f_code ft)))), r,
        logged (CStat (path r)) (Failed (ErrIO (f_code ft))) w)) ∧
  (w_dir w !! path r = None →
   fault_at w 0 = None → fault_at w 1 = None → fault_at w 2 = None →
   ∃ h w1,
     let r1 := set_size 0 (set_file (Some h) r) in
     openIfNeeded r w = (inr r1, w1) ∧
     Write b r w = writeOpened b r1 w1 ∧
     w_trace w1 = w_trace w ++ [Ev (CStat (path r)) (Failed ErrNotExist);
                                Ev (CMkdirAllDir (path r)) Done;
                                Ev (CCreate (path r)) (Opened h)] ∧
     w_dir w1 = <[path r := w_next w]> (w_dir w) ∧
     w_fds w1 !! h = Some (w_next w) ∧
     content w1 (path r) = Some []) ∧
  (∀ ino, w_dir w !! path r = Some ino →
   fault_at w 0 = None → fault_at w 1 = None →
   ∃ h w1,
     let fiSize := Z.of_nat (length (inode_data w ino)) in
     let r1 := set_size fiSize (set_file (Some h) r) in
     openIfNeeded r w = (inr r1, w1) ∧
     Write b r w = writeOpened b r1 w1 ∧
     w_trace w1 = w_trace w ++ [Ev (CStat (path r)) (Size fiSize);
                                Ev (COpenAppend (path r)) (Opened h)] ∧
     w_dir w1 = w_dir w ∧ w_inodes w1 = w_inodes w ∧
     w_fds w1 !! h = Some ino)).
Proof.
  cbv zeta. split; [reflexivity|].
  exact (Write_opens_lazily abc (demo 2) (empty_world []) eq_refl).
Defined.

(** The three ways a first write can start. *)
Example Write_creates_missing_file :
  Write abc (demo 2) (empty_world []) =
    ((3, None), mkRotator "log" 4 2 (Some 1%nat) 3,
     mkWorld {["log" := 0%nat]} {[0%nat := abc]} {[1%nat := 0%nat]} 2 []
       [Ev (CStat "log") (Failed ErrNotExist); Ev (CMkdirAllDir "log") Done;
        Ev (CCreate "log") (Opened 1%nat); Ev (CWrite 1%nat abc) (Wrote 3 None)]).
Proof. by vm_compute. Qed.

Example Write_resumes_existing_file :
  let w := mkWorld {["log" := 0%nat]} {[0%nat := abc]} ∅ 1 [] [] in
  fst (Write [Byte.x64] (demo 2) w) = ((1, None), mkRotator "log" 4 2 (Some 1%nat) 4) ∧
  content (snd (Write [Byte.x64] (demo 2) w)) "log" = Some (abc ++ [Byte.x64]).
Proof. by vm_compute. Qed.

Example Write_stat_failure :
  Write abc (demo 2) (empty_world [Some (Fault 13 0)]) =
    ((0, Some (Wrapped (ErrIO 13))), demo 2,
     mkWorld ∅ ∅ ∅ 0 [] [Ev (CStat "log") (Failed (ErrIO 13))]).
Proof. by vm_compute. Qed.

Example Write_short :
  fst (Write abc (fst before_short_write) (snd before_short_write)) =
    ((2, Some (Wrapped (ErrIO 9))), mkRotator "log" 10 2 (Some 1%nat) 5) ∧
  content (snd (Write abc (fst before_short_write) (snd before_short_write))) "log" =
    Some (abc ++ take 2 abc).
Proof. by vm_compute. Qed.

Lemma Write_counts_bytes_witness :
  let r := fst before_short_write in
  let w := snd before_short_write in
  let b := abc in
  openIfNeeded r w = (inr r, w) ∧
  rotateIfNeeded b r w = (None, r, w) ∧
  ∃ f, file r = Some f ∧
    let '((n, e), w3) := file_Write f b w in
    Write b r w = ((Z.of_nat n, Wrap <$> e),
                   set_size (add64 (size r) (Z.of_nat n)) r, w3) ∧
    (n ≤ length b)%nat ∧ (e = None → n = length b) ∧
    w_trace w3 = w_trace w ++ [Ev (CWrite f b) (Wrote n e)] ∧
    (∀ ino, w_fds w !! f = Some ino →
            inode_data w3 ino = inode_data w ino ++ take n b).
Proof.
  cbv zeta.
  assert (openIfNeeded (fst before_short_write) (snd before_short_write) =
          (inr (fst before_short_write), snd before_short_write)) as H1
    by (by vm_compute).
  assert (rotateIfNeeded abc (fst before_short_write) (snd before_short_write) =
          (None, fst before_short_write, snd before_short_write)) as H2
    by (by vm_compute).
  split; [exact H1|]. split; [exact H2|].
  exact (Write_counts_bytes abc _ _ _ _ _ _ H1 H2).
Defined.

Example broken_chain_disk :
  map_to_list (w_dir (snd broken_chain)) =
    [("log-3", 0%nat); ("log-1", 2%nat); ("log", 4%nat)] ∧
  file (fst broken_chain) = None.
Proof. by vm_compute. Qed.

(** C5, as stated, fails: from an empty disk, a rotation that fails part
    way leaves the third backup without a second one, at rest. *)
Lemma backups_gap_after_failed_rename :
  ¬ chain_ok (fst broken_chain) (snd broken_chain).
Proof.
  intros (_ & Hgap & _). specialize (Hgap 3 ltac:(lia)).
  assert (is_Some (w_dir (snd broken_chain) !! backupPath (path (fst broken_chain)) 3))
    as H3 by (vm_compute; eauto).
  apply Hgap in H3. vm_compute in H3. by destruct H3 as [? [=]].
Qed.

Lemma backups_stay_chained_witness :
  let ops := [OpWrite abc; OpWrite abc; OpRotate; OpClose; OpWrite abc; OpWrite abc] in
  let r := demo 3 in
  let w := empty_world [] in
  w_oracle w = [] ∧ settled r w ∧
  chain_ok (fst (run ops (r, w))) (snd (run ops (r, w))).
Proof.
  cbv zeta.
  assert (settled (demo 3) (empty_world [])) as H2 by (by apply settled_empty).
  split; [reflexivity|]. split; [exact H2|].
  exact (backups_stay_chained _ (demo 3) (empty_world []) eq_refl H2).
Defined.

Example chained_after_six_calls :
  map_to_list (w_dir (snd (run [OpWrite abc; OpWrite abc; OpRotate; OpClose;
                                OpWrite abc; OpWrite abc] (demo 3, empty_world [])))) =
    [("log-3", 0%nat); ("log-1", 4%nat); ("log-2", 2%nat); ("log", 7%nat)].
Proof. by vm_compute. Qed.

Example rotate_close_fails :
  rotate (fst before_close_failure) (snd before_close_failure) =
    (Some (Wrapped (ErrIO 3)), mkRotator "log" 4 2 None 3,
     mkWorld {["log" := 0%nat]} {[0%nat := abc]} ∅ 2 []
       (w_trace (snd before_close_failure) ++ [Ev (CClose 1%nat) (Failed (ErrIO 3))])).
Proof. by vm_compute. Qed.

Lemma rotate_close_first_witness :
  let r := fst before_close_failure in
  let w := snd before_close_failure in
  let f := 1%nat in
  file r = Some f ∧
  let cerr := fst (file_Close f w) in
  let w1 := snd (file_Close f w) in
  (cerr = None → rotate r w = rotate (set_file None r) w1) ∧
  (∀ e, cerr = Some e →
        rotate r w = (Some (Wrap e), set_file None r, w1) ∧
        w_trace w1 = w_trace w ++ [Ev (CClose f) (Failed e)] ∧
        w_dir w1 = w_dir w ∧ w_inodes w1 = w_inodes w ∧
        ∀ b, ∃ o rest,
          w_trace (snd (Write b (set_file None r) w1)) =
            w_trace w1 ++ Ev (CStat (path r)) o :: rest).
Proof.
  cbv zeta.
  assert (file (fst before_close_failure) = Some 1%nat) as H1 by (by vm_compute).
  split; [exact H1|].
  exact (rotate_close_first _ _ _ H1).
Defined.

Example leftover_disk :
  map_to_list (w_dir leftover) = [("log-1", 0%nat); ("log", 2%nat)].
Proof. by vm_compute. Qed.

(** C7, as stated, fails: the rotation succeeds and the old backup is
    still there. *)
Lemma zero_backups_leftover :
  ¬ (∀ r w r' w',
       maxBackups r < 1 →
       rotate r w = (None, r', w') →
       content w' (path r) = Some [] ∧
       ∀ i, 1 ≤ i → w_dir w' !! backupPath (path r) i = None).
Proof.
  intros H.
  destruct (H (demo 0) leftover
              (snd (fst (rotate (demo 0) leftover))) (snd (rotate (demo 0) leftover)))
    as [_ Hnone]; [by vm_compute|by vm_compute|].
  specialize (Hnone 1 ltac:(lia)). vm_compute in Hnone. discriminate.
Qed.

Lemma rotate_zero_backups_witness :
  let r := demo 0 in
  let w := leftover in
  let r' := snd (fst (rotate r w)) in
  let w' := snd (rotate r w) in
  maxBackups r < 1 ∧
  rotate r w = (None, r', w') ∧
  ∃ o h,
    w_trace w' = w_trace w ++ closing r
                   ++ [Ev (CRemove (path r)) o; Ev (CCreate (path r)) (Opened h)] ∧
    (o = Done ∨ o = Failed ErrNotExist) ∧
    file r' = Some h ∧ size r' = 0 ∧
    w_fds w' !! h = Some (w_next w) ∧
    content w' (path r) = Some [] ∧
    w_dir w' = <[path r := w_next w]> (w_dir w) ∧
    w_inodes w' = <[w_next w := []]> (w_inodes w) ∧
    ((∀ i, w_dir w !! backupPath (path r) i = None) →
     ∀ i, w_dir w' !! backupPath (path r) i = None).
Proof.
  cbv zeta.
  assert (maxBackups (demo 0) < 1) as H1 by (by vm_compute).
  assert (rotate (demo 0) leftover =
          (None, snd (fst (rotate (demo 0) leftover)), snd (rotate (demo 0) leftover)))
    as H2 by (by vm_compute).
  split; [exact H1|]. split; [exact H2|].
  exact (rotate_zero_backups _ _ _ _ H1 H2).
Defined.

(** With nothing at the path, the removal reports "does not exist" and
    the rotation goes through. *)
Example rotate_zero_missing_file :
  rotate (demo 0) (empty_world []) =
    (None, mkRotator "log" 4 0 (Some 1%nat) 0,
     mkWorld {["log" := 0%nat]} {[0%nat := []]} {[1%nat := 0%nat]} 2 []
       [Ev (CRemove "log") (Failed ErrNotExist); Ev (CCreate "log") (Opened 1%nat)]).
Proof. by vm_compute. Qed.

Example Close_twice :
  let '(e1, r1, w1) := Close (fst chained) (snd chained) in
  let '(e2, r2, w2) := Close r1 w1 in
  e1 = None ∧ e2 = None ∧ w2 = w1 ∧
  w_dir w1 = w_dir (snd chained) ∧ w_inodes w1 = w_inodes (snd chained).
Proof. by vm_compute. Qed.

Lemma size_stays_bounded_witness :
  let bs := [abc; abc; [Byte.x64]; abc; abc] in
  let r := demo 2 in
  let w := empty_world [] in
  match write_all bs r w with
  | Some (r', w') =>
      0 < maxSize r ∧ size r = 0 ∧
      Forall (λ b, Z.of_nat (length b) ≤ maxSize r) bs ∧
      write_all bs r w = Some (r', w') ∧
      size r' ≤ maxSize r'
  | None => False
  end.
Proof.
  cbv zeta.
  destruct (write_all [abc; abc; [Byte.x64]; abc; abc] (demo 2) (empty_world []))
    as [[r' w']|] eqn:E; [|by vm_compute in E].
  assert (0 < maxSize (demo 2)) as H1 by (by vm_compute).
  assert (Forall (λ b, Z.of_nat (length b) ≤ maxSize (demo 2))
                 [abc; abc; [Byte.x64]; abc; abc]) as H3
    by (repeat constructor; by vm_compute).
  split; [exact H1|]. split; [reflexivity|]. split; [exact H3|]. split; [reflexivity|].
  exact (size_stays_bounded _ _ _ _ _ H1 eq_refl H3 E).
Defined.

Example sizes_along_the_way :
  (λ s, size (fst s)) <$> write_all [abc; abc; [Byte.x64]; abc; abc] (demo 2) (empty_world [])
    = Some 3.
Proof. by vm_compute. Qed.

(** A close that fails (the fifth call). *)
Example Close_fails_then_succeeds :
  let '(e1, r1, w1) := Close (fst before_close_failure) (snd before_close_failure) in
  let '(e2, r2, w2) := Close r1 w1 in
  e1 = Some (Wrapped (ErrIO 3)) ∧ file r1 = None ∧ e2 = None ∧ w2 = w1 ∧
  ev_call <$> drop (length (w_trace w1)) (w_trace (snd (Write abc r1 w1))) =
    [CStat "log"; COpenAppend "log"; CClose 2%nat; CRemove "log-2";
     CRename "log-1" "log-2"; CRename "log" "log-1"; CCreate "log"; CWrite 4%nat abc].
Proof. by vm_compute. Qed.

Lemma Close_failure_clears_witness :
  let r := fst before_close_failure in
  let w := snd before_close_failure in
  let f := 1%nat in
  let e := ErrIO 3 in
  file r = Some f ∧
  fst (file_Close f w) = Some e ∧
  let '(e1, r1, w1) := Close r w in
  e1 = Some (Wrap e) ∧ file r1 = None ∧
  Close r1 w1 = (None, r1, w1) ∧
  ∀ b,
    (∃ o rest,
        w_trace (snd (Write b r1 w1)) = w_trace w1 ++ Ev (CStat (path r)) o :: rest) ∧
    (∀ n r2 w2, Write b r1 w1 = ((n, None), r2, w2) →
       ∃ h c evs, file r2 = Some h ∧ w_trace w2 = w_trace w1 ++ evs ∧
                  Ev c (Opened h) ∈ evs ∧
                  (c = CCreate (path r) ∨ c = COpenAppend (path r))).
Proof.
  cbv zeta.
  assert (file (fst before_close_failure) = Some 1%nat) as H1 by (by vm_compute).
  assert (fst (file_Close 1%nat (snd before_close_failure)) = Some (ErrIO 3)) as H2
    by (by vm_compute).
  split; [exact H1|]. split; [exact H2|].
  exact (Close_failure_clears _ _ _ _ H1 H2).
Defined.

